(** * Verification of [matrix.py]: the seam DP and the string-cutting DP

    The two Python functions [find_least_seam] and [break_string_cost] are
    embedded as executable Rocq functions over an explicit model of the Python
    values they manipulate:

    - Python integers are [Z] (unbounded on both sides);
    - [float('inf')] is the extra constructor [Inf] of [num];
    - lists are Rocq lists, indexed the Python way (negative indices count
      from the end, anything else out of range raises [IndexError]);
    - exceptions are the [Raise] branch of [result];
    - [for x in range(a, b)] is [for_range a b], a state-passing loop.

    The diagnostic [print] calls of [find_least_seam] write to standard output
    only and are left out. *)

From stdpp Require Import base tactics option list list_numbers sorting.
From Stdlib Require Import ZArith Lia.

Open Scope Z_scope.

(** ** Python values and exceptions *)

Inductive exn : Set := IndexError | ValueError.

Inductive result (A : Type) : Type :=
  | Ok (a : A)
  | Raise (e : exn).
Arguments Ok {A} a.
Arguments Raise {A} e.

#[global] Instance result_ret : MRet result := λ A a, Ok a.
#[global] Instance result_bind : MBind result := λ A B f r,
  match r with Ok a => f a | Raise e => Raise e end.

(** A Python number as the two functions see it: an [int], or the float
    [inf] used as the "nothing yet" sentinel. *)
Inductive num : Set :=
  | Int (z : Z)
  | Inf.

(** [a + b]. The sum of an [int] and [inf] is [inf]. *)
Definition num_add (a b : num) : num :=
  match a, b with
  | Int x, Int y => Int (x + y)
  | _, _ => Inf
  end.

(** [a - b] for an [int] [b]. *)
Definition num_sub (a : num) (b : Z) : num :=
  match a with
  | Int x => Int (x - b)
  | Inf => Inf
  end.

(** [a < b]. *)
Definition num_ltb (a b : num) : bool :=
  match a, b with
  | Int x, Int y => x <? y
  | Int _, Inf => true
  | Inf, _ => false
  end.

(** The built-in [min(a, b)]: the first argument unless the second is
    strictly smaller. *)
Definition py_min2 (a b : num) : num := if num_ltb b a then b else a.

(** The built-in [min(l)] on a list: [ValueError] on the empty list. *)
Definition py_min (l : list num) : result num :=
  match l with
  | [] => Raise ValueError
  | x :: l' => Ok (fold_left py_min2 l' x)
  end.

(** ** Python list indexing *)

(** The position [l[i]] refers to, or [IndexError]. *)
Definition py_index {A} (l : list A) (i : Z) : result nat :=
  let len := Z.of_nat (length l) in
  if (0 <=? i) && (i <? len) then Ok (Z.to_nat i)
  else if (- len <=? i) && (i <? 0) then Ok (Z.to_nat (len + i))
  else Raise IndexError.

(** [l[i]] *)
Definition getitem {A} (l : list A) (i : Z) : result A :=
  k ← py_index l i;
  match l !! k with
  | Some x => Ok x
  | None => Raise IndexError
  end.

(** [l[i] = v], returning the updated list. *)
Definition setitem {A} (l : list A) (i : Z) (v : A) : result (list A) :=
  k ← py_index l i; Ok (<[k := v]> l).

(** [t[i][j]] *)
Definition get2 {A} (t : list (list A)) (i j : Z) : result A :=
  row ← getitem t i; getitem row j.

(** [t[i][j] = v] on a table whose rows are distinct list objects (both
    functions build their table with a nested comprehension, so no two rows
    are aliases of each other). *)
Definition set2 {A} (t : list (list A)) (i j : Z) (v : A)
    : result (list (list A)) :=
  row ← getitem t i; row' ← setitem row j v; setitem t i row'.

(** ** Loops *)

(** [cnt] iterations of [body], the loop variable starting at [x]. *)
Fixpoint iter_from {St} (cnt : nat) (x : Z) (body : Z → St → result St)
    (s : St) : result St :=
  match cnt with
  | O => Ok s
  | S c => s' ← body x s; iter_from c (x + 1) body s'
  end.

(** [for x in range(lo, hi): s = body(x, s)] *)
Definition for_range {St} (lo hi : Z) (body : Z → St → result St) (s : St)
    : result St :=
  iter_from (Z.to_nat (hi - lo)) lo body s.

(** ** [find_least_seam] *)

Module Seam.

(** The body of the two nested loops: fills [dp[i-1][j-1]] ([i], [j] are the
    1-based loop variables of the source). *)
Definition fill_cell (d : list (list Z)) (n i j : Z) (dp : list (list num))
    : result (list (list num)) :=
  if i =? 1 then
    x ← get2 d (i - 1) (j - 1);
    set2 dp (i - 1) (j - 1) (Int x)
  else
    valid ← for_range (-1) 2 (λ k valid,
               if (k + j <? n) && (0 <=? k + j) then
                 x ← get2 dp (i - 2) (k + j - 1);
                 Ok (py_min2 valid x)
               else Ok valid) Inf;
    x ← get2 d (i - 1) (j - 1);
    set2 dp (i - 1) (j - 1) (num_add (Int x) valid).

(** The table [dp] as it stands when the loops are over. *)
Definition seam_table (d : list (list Z)) (m n : Z) : result (list (list num)) :=
  let dp := replicate (Z.to_nat m) (replicate (Z.to_nat n) (Int 0)) in
  for_range 1 (m + 1) (λ i dp,
    for_range 1 (n + 1) (λ j dp, fill_cell d n i j dp) dp) dp.

Definition find_least_seam (d : list (list Z)) (m n : Z) : result num :=
  dp ← seam_table d m n;
  last_row ← getitem dp (m - 1);
  py_min last_row.

End Seam.

(** ** [break_string_cost] *)

Module Cuts.

(** A table cell: the pair [(cost, split index)]. *)
Definition cell : Type := num * Z.

(** The innermost loop body: tries split [k] for the cell [(i, j)]. *)
Definition try_split (dp : list (list cell)) (i j k : Z) (min_cost : cell)
    : result cell :=
  a ← get2 dp i k;
  b ← get2 dp (k + 1) j;
  let cost := (num_add a.1 b.1, k) in
  Ok (if num_ltb cost.1 min_cost.1 then cost else min_cost).

(** The body of the loop over [i]: fills [dp[i][i + num_break_points]]. *)
Definition fill_cell (string_length : Z) (cuts : list Z)
    (num_break_points i : Z) (dp : list (list cell)) : result (list (list cell)) :=
  let n := Z.of_nat (length cuts) in
  let j := i + num_break_points in
  min_cost ← for_range i j (try_split dp i j) (Inf, -1);
  string_start ← (if i =? 0 then Ok 0 else getitem cuts (i - 1));
  string_end ← (if n <=? j then Ok string_length else getitem cuts j);
  set2 dp i j
    (num_sub (num_add min_cost.1 (Int string_end)) string_start, min_cost.2).

(** The table [dp] as it stands when the loops are over. *)
Definition break_table (string_length : Z) (cuts : list Z)
    : result (list (list cell)) :=
  let n := Z.of_nat (length cuts) in
  let m := n + 1 in
  let dp := replicate (Z.to_nat m) (replicate (Z.to_nat m) (Int 0, -1)) in
  for_range 1 m (λ num_break_points dp,
    for_range 0 (m - num_break_points)
      (fill_cell string_length cuts num_break_points) dp) dp.

Definition break_string_cost (string_length : Z) (cuts : list Z) : result num :=
  let n := Z.of_nat (length cuts) in
  dp ← break_table string_length cuts;
  c ← get2 dp 0 n;
  Ok c.1.

End Cuts.

(** ** Table cells by position *)

(** The cell [(i, j)] of a table, by position. *)
Definition tget {A} (t : list (list A)) (i j : nat) : option A :=
  t !! i ≫= λ row, row !! j.

(** The table with cell [(i, j)] replaced. *)
Definition tset {A} (t : list (list A)) (i j : nat) (v : A) : list (list A) :=
  match t !! i with
  | Some row => <[i := <[j := v]> row]> t
  | None => t
  end.

(** ** The brute-force oracle for [break_string_cost]

    The cuts are applied one after the other in a given order. The string is
    kept as the list of its current pieces, a piece [(a, b)] covering the
    positions [a ≤ c < b]; a cut costs the length of the piece that holds it
    and replaces that piece by the two parts. *)

Module Oracle.

(** A piece of the string, from its left end to its right end. *)
Definition piece : Type := Z * Z.

(** The piece [p] holds the position [c]. *)
Definition holds (p : piece) (c : Z) : bool := (p.1 <=? c) && (c <? p.2).

(** Cut at position [c]: the cost, and the pieces afterwards. *)
Fixpoint cut_at (c : Z) (ps : list piece) : Z * list piece :=
  match ps with
  | [] => (0, [])
  | p :: ps' =>
      if holds p c then (p.2 - p.1, (p.1, c) :: (c, p.2) :: ps')
      else let r := cut_at c ps' in (r.1, p :: r.2)
  end.

(** Total cost of applying the cuts of [order], first to last. *)
Fixpoint order_cost (ps : list piece) (order : list Z) : Z :=
  match order with
  | [] => 0
  | c :: rest => let r := cut_at c ps in r.1 + order_cost r.2 rest
  end.

(** The least element of a non-empty list. *)
Definition minimum (l : list Z) : Z :=
  match l with
  | [] => 0
  | x :: l' => foldr Z.min x l'
  end.

(** The least total cost over all orders in which the cuts can be applied. *)
Definition brute_force (string_length : Z) (cuts : list Z) : Z :=
  minimum (order_cost [(0, string_length)] <$> permutations cuts).

(** [v] is the least cost of cutting the piece [(a, b)] at the positions
    [cs], over all orders. *)
Definition least_cost (a b : Z) (cs : list Z) (v : Z) : Prop :=
  (∃ order, order ≡ₚ cs ∧ order_cost [(a, b)] order = v) ∧
  (∀ order, order ≡ₚ cs → v ≤ order_cost [(a, b)] order).

(** The preconditions the specification puts on the cuts: strictly
    increasing, and each within [0, string_length). *)
Fixpoint strictly_increasing (l : list Z) : bool :=
  match l with
  | x :: (y :: _) as l' => (x <? y) && strictly_increasing l'
  | _ => true
  end.

Definition in_range (string_length : Z) (cuts : list Z) : bool :=
  forallb (λ c, (0 <=? c) && (c <? string_length)) cuts.

End Oracle.

(** ** What the table of [break_string_cost] holds *)

Module CutsSpec.
Import Cuts Oracle.

(** The cost stored in cell [(i, j)] ([0] where there is no such cell or the
    cost is not an [int]). *)
Definition cost_of (dp : list (list cell)) (i j : nat) : Z :=
  match tget dp i j with
  | Some (Int v, _) => v
  | _ => 0
  end.

(** Left end of segment [i] and right end of segment [j], as [fill_cell]
    computes [string_start] and [string_end]. *)
Definition seg_start (cuts : list Z) (i : nat) : Z :=
  match i with
  | O => 0
  | S i' => default 0 (cuts !! i')
  end.

Definition seg_end (string_length : Z) (cuts : list Z) (j : nat) : Z :=
  if decide (length cuts ≤ j)%nat then string_length else default 0 (cuts !! j).

(** The state of the table, for [n] cuts, when the cells of width below [w],
    and those of width [w] that start before [i], have been filled: the
    diagonal and the triangle below it are untouched, and the cost of every
    filled cell is an [int] that satisfies [Good]. *)
Definition cuts_filled (n : nat) (Good : nat → nat → Z → Prop) (w i : nat)
    (dp : list (list cell)) : Prop :=
  (∀ a b, (a ≤ n)%nat → (b ≤ a)%nat → tget dp a b = Some (Int 0, -1)) ∧
  (∀ a b, (a < b ≤ n)%nat → (b - a < w ∨ (b - a = w ∧ a < i))%nat →
          ∃ v s, tget dp a b = Some (Int v, s) ∧ Good a b v) ∧
  (∀ a b, (a ≤ n)%nat → (b ≤ n)%nat → is_Some (tget dp a b)).

(** The cut positions strictly inside cell [(i, j)]. *)
Definition inner (cuts : list Z) (i j : nat) : list Z :=
  take (j - i) (drop i cuts).

(** What the table holds: cell [(i, j)] has the least cost of making the
    cuts inside it. *)
Definition optimal (string_length : Z) (cuts : list Z) (i j : nat) (v : Z)
    : Prop :=
  least_cost (seg_start cuts i) (seg_end string_length cuts j) (inner cuts i j) v.

End CutsSpec.

(** ** What the table of [find_least_seam] holds *)

Module SeamSpec.
Import Seam.

(** The previous-row indices the loop over [k] reads for the 0-based column
    [j]: those of [j-1], [j], [j+1] that lie in [-1, n-2]. *)
Definition used_window (n j : Z) : list Z :=
  filter (λ c, -1 ≤ c ≤ n - 2) [j - 1; j; j + 1].

(** The column a Python index stands for in a row of length [n]: a negative
    index counts from the end. *)
Definition column_of (n c : Z) : nat :=
  Z.to_nat (if c <? 0 then n + c else c).

(** [valid] after the loop: the running [min], from [inf], over the given
    columns of the previous row. *)
Definition min_over (prev : list num) (cols : list nat) : num :=
  foldl (λ acc c, py_min2 acc (default Inf (prev !! c))) Inf cols.

(** One iteration of the loop over [k], on the index [c = j + k]. *)
Definition window_step (n : Z) (prev : list num) (valid : num) (c : Z) : num :=
  if decide (-1 ≤ c ≤ n - 2)
  then py_min2 valid (default Inf (prev !! column_of n c))
  else valid.

(** What the loops leave in cell [(a, b)]: the grid entry in row 0, and below
    it the grid entry plus the minimum over the window in the row above. *)
Definition cell_ok (d : list (list Z)) (n : nat) (dp : list (list num))
    (a b : nat) : Prop :=
  ∃ x, tget d a b = Some x ∧
    match a with
    | O => tget dp a b = Some (Int x)
    | S a' => ∃ prev, dp !! a' = Some prev ∧
        tget dp a b
        = Some (num_add (Int x)
                  (min_over prev (column_of (Z.of_nat n)
                                    <$> used_window (Z.of_nat n) (Z.of_nat b))))
    end.

(** The state of the table when the rows before [r], and the first [c] cells
    of row [r], have been filled. *)
Definition seam_filled (d : list (list Z)) (m n r c : nat) (dp : list (list num))
    : Prop :=
  length dp = m ∧ Forall (λ row, length row = n) dp ∧
  ∀ a b, (a < m)%nat → (b < n)%nat → (a < r ∨ (a = r ∧ b < c))%nat →
         cell_ok d n dp a b.

(** The window the specification asks for: the columns [j-1], [j], [j+1]
    that lie in [0, n). *)
Definition clamped_window (n j : Z) : list Z :=
  filter (λ c, 0 ≤ c < n) [j - 1; j; j + 1].

(** A top-to-bottom path, one column per row: every column is in the grid
    and consecutive columns differ by at most one. *)
Fixpoint path_ok (n : nat) (cols : list nat) : bool :=
  match cols with
  | [] => true
  | c :: rest =>
      (c <? n)%nat
      && match rest with
         | [] => true
         | c' :: _ => ((c' <=? c + 1) && (c <=? c' + 1))%nat
         end
      && path_ok n rest
  end.

(** The sum of the grid entries along a path that starts in the first of the
    given rows. *)
Fixpoint path_cost (rows : list (list Z)) (cols : list nat) : option Z :=
  match rows, cols with
  | [], [] => Some 0
  | row :: rows', c :: cols' =>
      x ← row !! c; rest ← path_cost rows' cols'; Some (x + rest)
  | _, _ => None
  end.

(** The number is an [int], not [inf]. *)
Definition is_int (a : num) : Prop := ∃ z, a = Int z.

(** The window [find_least_seam] uses, spelled out for a grid [d] of [m]
    rows and [n] columns: below row 0, cell [(i, j)] is the grid entry plus
    the minimum of the previous row over [used_window]; column 0 takes that
    minimum over the columns [n-1], [0] and [1], the last column over column
    [n-2] alone. *)
Definition wrapped_window (d : list (list Z)) (m n : nat) : Prop :=
  ∃ dp, seam_table d (Z.of_nat m) (Z.of_nat n) = Ok dp ∧
    ∀ i, (0 < i < m)%nat →
      ∃ prev, dp !! (i - 1)%nat = Some prev ∧ length prev = n ∧
        (∀ j x, (j < n)%nat → tget d i j = Some x →
           tget dp i j
           = Some (num_add (Int x)
                     (min_over prev
                        (column_of (Z.of_nat n)
                           <$> used_window (Z.of_nat n) (Z.of_nat j))))) ∧
        (∀ x, tget d i 0 = Some x →
           tget dp i 0
           = Some (num_add (Int x)
                     (min_over prev [(n - 1)%nat; 0%nat; 1%nat]))) ∧
        (∀ x p, tget d i (n - 1) = Some x → prev !! (n - 2)%nat = Some p →
           tget dp i (n - 1) = Some (num_add (Int x) p)).

(** [a ≤ b] on Python numbers, [inf] on top. *)
Definition num_le (a b : num) : Prop :=
  match a, b with
  | Int x, Int y => x ≤ y
  | _, Inf => True
  | Inf, Int _ => False
  end.

(** Both raise the same exception, or both return and the values are related. *)
Definition res_rel {A B} (R : A → B → Prop) (r1 : result A) (r2 : result B)
    : Prop :=
  match r1, r2 with
  | Ok a, Ok b => R a b
  | Raise e1, Raise e2 => e1 = e2
  | _, _ => False
  end.

(** The order on the outcomes of [find_least_seam]. *)
Definition res_le : result num → result num → Prop := res_rel num_le.

(** Same shape, entries no smaller: on grids, and on tables. *)
Definition grid_le : list (list Z) → list (list Z) → Prop :=
  Forall2 (Forall2 Z.le).

Definition table_le : list (list num) → list (list num) → Prop :=
  Forall2 (Forall2 num_le).

End SeamSpec.

(** ** Outcomes and seams *)

Module SeamPaths.
Import Seam SeamSpec.

(** The outcome is a value, not an exception. *)
Definition is_ok {A} (r : result A) : Prop := ∃ a, r = Ok a.

(** The outcome is a value or an [IndexError]. *)
Definition index_only {A} (r : result A) : Prop :=
  ∀ e, r = Raise e → e = IndexError.

(** Filling column [j] of a row reads column [c] of the row above: [c] is one
    of the columns the indices of [used_window] stand for. *)
Definition reads (n c j : nat) : Prop :=
  c ∈ column_of (Z.of_nat n) <$> used_window (Z.of_nat n) (Z.of_nat j).

(** [seam_to d n r j v]: there is a seam from row 0 down to cell [(r, j)]
    of total cost [v], each step of which goes from a column to one that
    reads it. *)
Inductive seam_to (d : list (list Z)) (n : nat) : nat → nat → Z → Prop :=
  | seam_top j x :
      (j < n)%nat → tget d 0 j = Some x → seam_to d n 0 j x
  | seam_down r c j v x :
      seam_to d n r c v → reads n c j → (j < n)%nat →
      tget d (S r) j = Some x → seam_to d n (S r) j (x + v).

End SeamPaths.

(** ** The recurrence of [break_string_cost] *)

Module CutsRec.
Import Cuts CutsSpec SeamSpec.

(** The cost of splitting cell [(a, b)] at [k]: the sum of the costs stored
    for the two parts. *)
Definition split_cost (dp : list (list cell)) (a b k : nat) : Z :=
  cost_of dp a k + cost_of dp (k + 1) b.

(** Cell [(a, b)] obeys the recurrence: it records a split [s] between its
    ends, the first one of least cost, and its cost is that of the split plus
    the length from its left end to its right end. *)
Definition split_ok (string_length : Z) (cuts : list Z) (dp : list (list cell))
    (a b : nat) : Prop :=
  ∃ s : nat, (a ≤ s < b)%nat ∧
    tget dp a b
    = Some (Int (split_cost dp a b s + seg_end string_length cuts b
                 - seg_start cuts a), Z.of_nat s) ∧
    (∀ k, (a ≤ k < b)%nat → split_cost dp a b s ≤ split_cost dp a b k) ∧
    (∀ k, (a ≤ k < s)%nat → split_cost dp a b s < split_cost dp a b k).

(** The state of the table when the cells of width below [w], and those of
    width [w] that start before [i], have been filled: they hold [int] costs
    and obey the recurrence. *)
Definition rec_filled (string_length : Z) (cuts : list Z) (w i : nat)
    (dp : list (list cell)) : Prop :=
  cuts_filled (length cuts) (λ _ _ _, True) w i dp ∧
  ∀ a b, (a < b ≤ length cuts)%nat → (b - a < w ∨ (b - a = w ∧ a < i))%nat →
         split_ok string_length cuts dp a b.

(** The costs of one cell are no larger than those of the other; the split
    indices are not compared. *)
Definition cell_le (c c' : cell) : Prop := num_le c.1 c'.1.

(** Every piece has a length between 0 and [bound]. *)
Definition pieces_within (bound : Z) (ps : list Oracle.piece) : Prop :=
  Forall (λ p, 0 ≤ p.2 - p.1 ≤ bound) ps.

End CutsRec.

(** ** Basic facts about indexing and loops *)

Lemma getitem_nat {A} (l : list A) (k : nat) x :
  l !! k = Some x → getitem l (Z.of_nat k) = Ok x.
Proof.
  intros Hk. pose proof (lookup_lt_Some _ _ _ Hk) as Hlt.
  unfold getitem, py_index.
  replace (0 <=? Z.of_nat k) with true by (symmetry; apply Z.leb_le; lia).
  replace (Z.of_nat k <? Z.of_nat (length l)) with true
    by (symmetry; apply Z.ltb_lt; lia).
  cbn. rewrite Nat2Z.id, Hk. reflexivity.
Qed.

(** [l[-1]] is the last element. *)
Lemma getitem_minus_one {A} (l : list A) x :
  l !! (length l - 1)%nat = Some x → getitem l (-1) = Ok x.
Proof.
  intros Hk. pose proof (lookup_lt_Some _ _ _ Hk) as Hlt.
  unfold getitem, py_index.
  replace (- Z.of_nat (length l) <=? -1) with true
    by (symmetry; apply Z.leb_le; lia).
  cbn.
  replace (Z.to_nat (Z.of_nat (length l) + -1)) with (length l - 1)%nat by lia.
  rewrite Hk. reflexivity.
Qed.

Lemma setitem_nat {A} (l : list A) (k : nat) v :
  (k < length l)%nat → setitem l (Z.of_nat k) v = Ok (<[k := v]> l).
Proof.
  intros Hlt. unfold setitem, py_index.
  replace (0 <=? Z.of_nat k) with true by (symmetry; apply Z.leb_le; lia).
  replace (Z.of_nat k <? Z.of_nat (length l)) with true
    by (symmetry; apply Z.ltb_lt; lia).
  cbn. rewrite Nat2Z.id. reflexivity.
Qed.

Section tables.
Context {A : Type}.
Implicit Types (t : list (list A)).

Lemma get2_nat t (i j : nat) x :
  tget t i j = Some x → get2 t (Z.of_nat i) (Z.of_nat j) = Ok x.
Proof.
  unfold tget, get2. destruct (t !! i) as [row|] eqn:Hrow; [|done].
  cbn. intros Hx. rewrite (getitem_nat _ _ _ Hrow). cbn.
  by apply getitem_nat.
Qed.

Lemma set2_nat t (i j : nat) x v :
  tget t i j = Some x → set2 t (Z.of_nat i) (Z.of_nat j) v = Ok (tset t i j v).
Proof.
  unfold tget, set2, tset. destruct (t !! i) as [row|] eqn:Hrow; [|done].
  cbn. intros Hx. rewrite (getitem_nat _ _ _ Hrow). cbn.
  rewrite setitem_nat by (by eapply lookup_lt_Some). cbn.
  apply setitem_nat. by eapply lookup_lt_Some.
Qed.

Lemma tget_tset_eq t (i j : nat) x v :
  tget t i j = Some x → tget (tset t i j v) i j = Some v.
Proof.
  unfold tget, tset. destruct (t !! i) as [row|] eqn:Hrow; [|done].
  cbn. intros Hx.
  rewrite list_lookup_insert_eq by (by eapply lookup_lt_Some). cbn.
  apply list_lookup_insert_eq. by eapply lookup_lt_Some.
Qed.

Lemma tget_tset_ne t (i j i' j' : nat) v :
  (i, j) ≠ (i', j') → tget (tset t i j v) i' j' = tget t i' j'.
Proof.
  intros Hne. unfold tget, tset.
  destruct (t !! i) as [row|] eqn:Hrow; [|done].
  destruct (decide (i = i')) as [<-|Hi].
  - rewrite list_lookup_insert_eq by (by eapply lookup_lt_Some).
    rewrite Hrow. cbn. apply list_lookup_insert_ne. congruence.
  - by rewrite list_lookup_insert_ne.
Qed.

Lemma tget_replicate (r c i j : nat) (x : A) :
  (i < r)%nat → (j < c)%nat → tget (replicate r (replicate c x)) i j = Some x.
Proof.
  intros Hi Hj. unfold tget.
  rewrite lookup_replicate_2 by done. cbn. by apply lookup_replicate_2.
Qed.

End tables.

Section loops.
Context {St : Type}.
Implicit Types (body : Z → St → result St).

(** Invariant rule: a body that never raises and carries [I] from one value
    of the loop variable to the next carries it through the whole loop. *)
Lemma iter_from_inv (I : Z → St → Prop) body cnt x s :
  I x s →
  (∀ y t, x ≤ y < x + Z.of_nat cnt → I y t →
          ∃ t', body y t = Ok t' ∧ I (y + 1) t') →
  ∃ s', iter_from cnt x body s = Ok s' ∧ I (x + Z.of_nat cnt) s'.
Proof.
  revert x s. induction cnt as [|cnt IH]; intros x s Hx Hbody.
  - exists s. split; [done|]. by replace (x + Z.of_nat 0) with x by lia.
  - destruct (Hbody x s) as (t & Ht & HI); [lia|done|].
    destruct (IH (x + 1) t) as (s' & Hs' & HI').
    + done.
    + intros y u Hy. apply Hbody. lia.
    + exists s'. cbn. rewrite Ht. cbn. split; [done|].
      by replace (x + Z.of_nat (S cnt)) with (x + 1 + Z.of_nat cnt) by lia.
Qed.

Lemma for_range_inv (I : Z → St → Prop) body lo hi s :
  lo ≤ hi →
  I lo s →
  (∀ y t, lo ≤ y < hi → I y t → ∃ t', body y t = Ok t' ∧ I (y + 1) t') →
  ∃ s', for_range lo hi body s = Ok s' ∧ I hi s'.
Proof.
  intros Hle Hlo Hbody. unfold for_range.
  destruct (iter_from_inv I body (Z.to_nat (hi - lo)) lo s) as (s' & Hs' & HI).
  - done.
  - intros y t Hy. apply Hbody. lia.
  - exists s'. split; [done|].
    by replace (lo + Z.of_nat (Z.to_nat (hi - lo))) with hi in HI by lia.
Qed.

End loops.

(** ** The table of [break_string_cost] *)

Module CutsTable.
Import Cuts CutsSpec.

Lemma cost_of_Some (dp : list (list cell)) i j v s : tget dp i j = Some (Int v, s) → cost_of dp i j = v.
Proof. intros H. unfold cost_of. by rewrite H. Qed.

(** The loop over [k]: it ends on the first split of least cost. *)
Lemma scan_splits (dp : list (list cell)) (i j : nat) :
  (i < j)%nat →
  (∀ k, (i ≤ k < j)%nat →
        (∃ v s, tget dp i k = Some (Int v, s)) ∧
        (∃ v s, tget dp (k + 1) j = Some (Int v, s))) →
  ∃ ks : nat, (i ≤ ks < j)%nat ∧
    for_range (Z.of_nat i) (Z.of_nat j)
      (try_split dp (Z.of_nat i) (Z.of_nat j)) (Inf, -1)
    = Ok (Int (cost_of dp i ks + cost_of dp (ks + 1) j), Z.of_nat ks) ∧
    ∀ k, (i ≤ k < j)%nat →
      cost_of dp i ks + cost_of dp (ks + 1) j
      ≤ cost_of dp i k + cost_of dp (k + 1) j.
Proof.
  intros Hij Hcells.
  set (sum k := cost_of dp i k + cost_of dp (k + 1) j).
  set (I (y : Z) (mc : cell) :=
         (y = Z.of_nat i ∧ mc = (Inf, -1)) ∨
         (∃ ks : nat, Z.of_nat i ≤ Z.of_nat ks < y ∧
            mc = (Int (sum ks), Z.of_nat ks) ∧
            ∀ k : nat, Z.of_nat i ≤ Z.of_nat k < y → sum ks ≤ sum k)).
  destruct (for_range_inv I (try_split dp (Z.of_nat i) (Z.of_nat j))
              (Z.of_nat i) (Z.of_nat j) (Inf, -1)) as (mc & Hloop & HI).
  - lia.
  - by left.
  - intros y mc Hy HIy.
    assert (∃ k : nat, y = Z.of_nat k) as [k ->] by (exists (Z.to_nat y); lia).
    destruct (Hcells k) as [(va & sa & Ha) (vb & sb & Hb)]; [lia|].
    unfold try_split.
    rewrite (get2_nat _ _ _ _ Ha). cbn.
    replace (Z.of_nat k + 1) with (Z.of_nat (k + 1)) by lia.
    rewrite (get2_nat _ _ _ _ Hb). cbn.
    assert (va + vb = sum k) as Hsum.
    { unfold sum. by rewrite (cost_of_Some _ _ _ _ _ Ha), (cost_of_Some _ _ _ _ _ Hb). }
    rewrite Hsum. eexists. split; [done|].
    destruct HIy as [[Hki ->]|(ks & Hks & -> & Hmin)]; cbn.
    + right. exists k. split; [lia|]. split; [done|].
      intros k' Hk'. assert (k' = k) as -> by lia. lia.
    + destruct (Z.ltb_spec (sum k) (sum ks)) as [Hlt|Hge].
      * right. exists k. split; [lia|]. split; [done|].
        intros k' Hk'. destruct (decide (k' = k)) as [->|Hne]; [lia|].
        assert (sum ks ≤ sum k') by (apply Hmin; lia). lia.
      * right. exists ks. split; [lia|]. split; [done|].
        intros k' Hk'. destruct (decide (k' = k)) as [->|Hne]; [lia|].
        apply Hmin; lia.
  - destruct HI as [[? _]|(ks & Hks & -> & Hmin)]; [lia|].
    exists ks. split; [lia|]. split; [done|].
    intros k Hk. apply Hmin. lia.
Qed.

(** *** A generic invariant of the table

    [Good i j v] is any property of the cost of cell [(i, j)] that holds of
    [0] on the diagonal and is carried by one step of the recurrence. *)
Section table_invariant.
Variables (string_length : Z) (cuts : list Z).
Variable Good : nat → nat → Z → Prop.

Let n : nat := length cuts.

Hypothesis Good_diag : ∀ i, (i ≤ n)%nat → Good i i 0.
Hypothesis Good_step : ∀ (i j ks : nat) (va vb : nat → Z),
  (i < j ≤ n)%nat → (i ≤ ks < j)%nat →
  (∀ k, (i ≤ k < j)%nat → Good i k (va k) ∧ Good (k + 1) j (vb k)) →
  (∀ k, (i ≤ k < j)%nat → va ks + vb ks ≤ va k + vb k) →
  Good i j (va ks + vb ks + seg_end string_length cuts j - seg_start cuts i).

Lemma filled_cell w i dp a b :
  cuts_filled n Good w i dp → (a ≤ b ≤ n)%nat → (b - a < w)%nat → (0 < w)%nat →
  ∃ v s, tget dp a b = Some (Int v, s) ∧ Good a b v.
Proof.
  intros (Hlow & Hup & _) Hab Hw Hpos.
  destruct (decide (a = b)) as [->|Hne].
  - exists 0, (-1). split; [apply Hlow; lia|apply Good_diag; lia].
  - apply Hup; lia.
Qed.

Lemma fill_cut_cell_filled (w i : nat) dp :
  (0 < w)%nat → (i + w ≤ n)%nat → cuts_filled n Good w i dp →
  ∃ dp', fill_cell string_length cuts (Z.of_nat w) (Z.of_nat i) dp = Ok dp' ∧
         cuts_filled n Good w (i + 1) dp'.
Proof.
  intros Hw Hiw Hdp. unfold fill_cell.
  replace (Z.of_nat i + Z.of_nat w) with (Z.of_nat (i + w)) by lia.
  set (j := (i + w)%nat).
  assert (∀ k, (i ≤ k < j)%nat →
            Good i k (cost_of dp i k) ∧ Good (k + 1) j (cost_of dp (k + 1) j) ∧
            (∃ v s, tget dp i k = Some (Int v, s)) ∧
            (∃ v s, tget dp (k + 1) j = Some (Int v, s))) as Hsub.
  { intros k Hk.
    destruct (filled_cell w i dp i k Hdp) as (va & sa & Ha & HGa); [lia..|].
    destruct (filled_cell w i dp (k + 1) j Hdp) as (vb & sb & Hb & HGb); [lia..|].
    rewrite (cost_of_Some _ _ _ _ _ Ha), (cost_of_Some _ _ _ _ _ Hb). eauto 10. }
  destruct (scan_splits dp i j) as (ks & Hks & -> & Hmin); [lia| |].
  { intros k Hk. destruct (Hsub k Hk) as (_ & _ & ? & ?). done. }
  cbn.
  assert ((if Z.of_nat i =? 0 then Ok 0 else getitem cuts (Z.of_nat i - 1))
          = Ok (seg_start cuts i)) as ->.
  { destruct i as [|i']; [done|].
    replace (Z.of_nat (S i') =? 0) with false by (symmetry; apply Z.eqb_neq; lia).
    replace (Z.of_nat (S i') - 1) with (Z.of_nat i') by lia.
    destruct (lookup_lt_is_Some_2 cuts i') as [c Hc]; [fold n; lia|].
    cbn. rewrite Hc. by apply getitem_nat. }
  cbn.
  assert ((if Z.of_nat (length cuts) <=? Z.of_nat j then Ok string_length
           else getitem cuts (Z.of_nat j))
          = Ok (seg_end string_length cuts j)) as ->.
  { unfold seg_end. destruct (decide (length cuts ≤ j)%nat) as [Hle|Hgt].
    - by replace (Z.of_nat (length cuts) <=? Z.of_nat j) with true
        by (symmetry; apply Z.leb_le; lia).
    - replace (Z.of_nat (length cuts) <=? Z.of_nat j) with false
        by (symmetry; apply Z.leb_gt; lia).
      destruct (lookup_lt_is_Some_2 cuts j) as [c Hc]; [lia|].
      rewrite Hc. by apply getitem_nat. }
  cbn.
  destruct Hdp as (Hlow & Hup & Hshape).
  destruct (Hshape i j) as [old Hold]; [lia..|].
  rewrite (set2_nat _ _ _ _ _ Hold). eexists. split; [done|].
  split; [|split].
  - intros a b Ha Hb. rewrite tget_tset_ne by (intros [=]; lia). by apply Hlow.
  - intros a b Hab Hwidth.
    destruct (decide ((i, j) = (a, b))) as [[= <- <-]|Hne].
    + rewrite (tget_tset_eq _ _ _ _ _ Hold). do 2 eexists. split; [done|].
      apply (Good_step i j ks (λ k, cost_of dp i k) (λ k, cost_of dp (k + 1) j));
        [lia|lia| |done].
      intros k Hk. destruct (Hsub k Hk) as (? & ? & _). done.
    + rewrite tget_tset_ne by done. apply Hup; [lia|].
      destruct Hwidth as [?|[? ?]]; [by left|right].
      split; [done|]. destruct (decide (a = i)) as [->|?]; [|lia].
      exfalso. apply Hne. f_equal. lia.
  - intros a b Ha Hb.
    destruct (decide ((i, j) = (a, b))) as [[= <- <-]|Hne].
    + by rewrite (tget_tset_eq _ _ _ _ _ Hold).
    + rewrite tget_tset_ne by done. by apply Hshape.
Qed.

(** The whole table: the lower triangle and the diagonal keep their initial
    [(0, -1)], every cell above the diagonal holds an [int] cost that
    satisfies [Good]. *)
Lemma break_table_filled :
  ∃ dp, break_table string_length cuts = Ok dp ∧
    (∀ a b, (a ≤ n)%nat → (b ≤ a)%nat → tget dp a b = Some (Int 0, -1)) ∧
    (∀ a b, (a ≤ b ≤ n)%nat → ∃ v s, tget dp a b = Some (Int v, s) ∧ Good a b v).
Proof.
  unfold break_table. fold n.
  set (dp0 := replicate _ _).
  destruct (for_range_inv (λ y dp, cuts_filled n Good (Z.to_nat y) 0 dp)
              (λ num_break_points dp,
                 for_range 0 (Z.of_nat n + 1 - num_break_points)
                   (fill_cell string_length cuts num_break_points) dp)
              1 (Z.of_nat n + 1) dp0) as (dp & Hloop & Hdp).
  - lia.
  - assert (∀ a b, (a ≤ n)%nat → (b ≤ n)%nat → tget dp0 a b = Some (Int 0, -1))
      as Hinit by (intros a b ? ?; apply tget_replicate; lia).
    split; [|split].
    + intros a b ? ?. apply Hinit; lia.
    + intros a b ? [?|[? ?]]; lia.
    + intros a b ? ?. rewrite Hinit by lia. done.
  - intros y dp Hy Hdp.
    assert (∃ w : nat, y = Z.of_nat w) as [w ->] by (exists (Z.to_nat y); lia).
    rewrite Nat2Z.id in Hdp.
    destruct (for_range_inv (λ x dp, cuts_filled n Good w (Z.to_nat x) dp)
                (fill_cell string_length cuts (Z.of_nat w))
                0 (Z.of_nat n + 1 - Z.of_nat w) dp) as (dp' & Hloop & Hdp').
    + lia.
    + done.
    + intros x t Hx Ht.
      assert (∃ i : nat, x = Z.of_nat i) as [i ->] by (exists (Z.to_nat x); lia).
      rewrite Nat2Z.id in Ht.
      destruct (fill_cut_cell_filled w i t) as (t' & Ht' & Hfilled); [lia..|done|].
      exists t'. split; [done|].
      by replace (Z.to_nat (Z.of_nat i + 1)) with (i + 1)%nat by lia.
    + exists dp'. split; [done|].
      replace (Z.to_nat (Z.of_nat w + 1)) with (w + 1)%nat by lia.
      destruct Hdp' as (Hlow & Hup & Hshape). split; [done|]. split; [|done].
      intros a b Hab Hwidth. apply Hup; [done|].
      destruct Hwidth as [?|[? ?]]; [|lia].
      destruct (decide (b - a = w)%nat); [right|left]; lia.
  - exists dp. split; [done|].
    replace (Z.to_nat (Z.of_nat n + 1)) with (n + 1)%nat in Hdp by lia.
    split; [apply Hdp|].
    intros a b Hab. eapply filled_cell; [done|lia..].
Qed.

End table_invariant.

End CutsTable.

(** ** Facts about the oracle *)

Module OracleFacts.
Import Oracle.

Lemma cut_at_miss c ps :
  Forall (λ p, holds p c = false) ps → cut_at c ps = (0, ps).
Proof.
  induction 1 as [|p ps Hp _ IH]; [done|]. cbn. by rewrite Hp, IH.
Qed.

Lemma cut_at_app_l c ps1 ps2 :
  Forall (λ p, holds p c = false) ps2 →
  cut_at c (ps1 ++ ps2) = ((cut_at c ps1).1, (cut_at c ps1).2 ++ ps2).
Proof.
  intros H2. induction ps1 as [|p ps1 IH]; cbn.
  - by rewrite cut_at_miss.
  - destruct (holds p c); [done|]. by rewrite IH.
Qed.

Lemma cut_at_app_r c ps1 ps2 :
  Forall (λ p, holds p c = false) ps1 →
  cut_at c (ps1 ++ ps2) = ((cut_at c ps2).1, ps1 ++ (cut_at c ps2).2).
Proof.
  induction 1 as [|p ps1 Hp _ IH]; cbn.
  - by destruct (cut_at c ps2).
  - by rewrite Hp, IH.
Qed.

Lemma cut_at_below k c ps :
  c < k → Forall (λ p, p.2 ≤ k) ps → Forall (λ p, p.2 ≤ k) (cut_at c ps).2.
Proof.
  intros Hc. induction 1 as [|p ps Hp Hps IH]; cbn; [done|].
  destruct (holds p c); cbn.
  - repeat constructor; cbn; [lia|done|done].
  - by constructor.
Qed.

Lemma cut_at_above k c ps :
  k < c → Forall (λ p, k ≤ p.1) ps → Forall (λ p, k ≤ p.1) (cut_at c ps).2.
Proof.
  intros Hc. induction 1 as [|p ps Hp Hps IH]; cbn; [done|].
  destruct (holds p c); cbn.
  - repeat constructor; cbn; [done|lia|done].
  - by constructor.
Qed.

(** Cuts on either side of a boundary [k] do not see each other. *)
Lemma order_cost_split k order ps1 ps2 :
  Forall (λ p, p.2 ≤ k) ps1 → Forall (λ p, k ≤ p.1) ps2 → k ∉ order →
  order_cost (ps1 ++ ps2) order
  = order_cost ps1 (filter (λ c, c < k) order)
    + order_cost ps2 (filter (λ c, k < c) order).
Proof.
  revert ps1 ps2. induction order as [|c rest IH]; intros ps1 ps2 H1 H2 Hk; [done|].
  apply not_elem_of_cons in Hk as [Hck Hk].
  destruct (Z.lt_total c k) as [Hlt|[->|Hgt]]; [|done|].
  - rewrite (filter_cons_True (λ c, c < k)) by done.
    rewrite (filter_cons_False (λ c, k < c)) by lia.
    cbn. rewrite cut_at_app_l.
    + cbn. rewrite IH; [lia|by apply cut_at_below|done..].
    + eapply Forall_impl; [exact H2|]. cbn. intros p Hp. unfold holds.
      apply andb_false_iff. left. apply Z.leb_gt. lia.
  - rewrite (filter_cons_False (λ c, c < k)) by lia.
    rewrite (filter_cons_True (λ c, k < c)) by done.
    cbn. rewrite cut_at_app_r.
    + cbn. rewrite IH; [lia|done|by apply cut_at_above|done].
    + eapply Forall_impl; [exact H1|]. cbn. intros p Hp. unfold holds.
      apply andb_false_iff. right. apply Z.ltb_ge. lia.
Qed.

(** The first cut pays for the whole piece; the rest splits in two. *)
Lemma order_cost_first a b k rest :
  a ≤ k < b → k ∉ rest →
  order_cost [(a, b)] (k :: rest)
  = (b - a) + order_cost [(a, k)] (filter (λ c, c < k) rest)
    + order_cost [(k, b)] (filter (λ c, k < c) rest).
Proof.
  intros Hk Hnin. cbn. unfold holds. cbn.
  replace (a <=? k) with true by (symmetry; apply Z.leb_le; lia).
  replace (k <? b) with true by (symmetry; apply Z.ltb_lt; lia).
  cbn. change [(a, k); (k, b)] with ([(a, k)] ++ [(k, b)]).
  rewrite (order_cost_split k rest [(a, k)] [(k, b)]);
    [lia|repeat constructor; cbn; lia..|done].
Qed.

Lemma filter_keep_all {A} (P : A → Prop) `{∀ x, Decision (P x)} (l : list A) :
  Forall P l → filter P l = l.
Proof.
  induction 1 as [|x l Hx _ IH]; [done|].
  by rewrite filter_cons_True, IH.
Qed.

Lemma filter_drop_all {A} (P : A → Prop) `{∀ x, Decision (P x)} (l : list A) :
  Forall (λ x, ¬ P x) l → filter P l = [].
Proof.
  induction 1 as [|x l Hx _ IH]; [done|].
  by rewrite filter_cons_False, IH.
Qed.

(** Around an element of a strictly increasing list: smaller ones before,
    larger ones after. *)
Lemma sorted_middle (l r : list Z) (c : Z) :
  StronglySorted Z.lt (l ++ c :: r) →
  Forall (λ x, x < c) l ∧ Forall (λ x, c < x) r.
Proof.
  intros Hs. apply StronglySorted_app in Hs as (Hlr & _ & Hr).
  apply StronglySorted_cons in Hr as [Hr _]. split; [|done].
  apply Forall_forall. intros x Hx. apply (Hlr x c Hx). by left.
Qed.

Lemma filter_sides (l r : list Z) (c : Z) :
  Forall (λ x, x < c) l → Forall (λ x, c < x) r →
  filter (λ x, x < c) (l ++ r) = l ∧ filter (λ x, c < x) (l ++ r) = r.
Proof.
  intros Hl Hr. rewrite !filter_app.
  rewrite (filter_keep_all (λ x, x < c) l) by done.
  rewrite (filter_drop_all (λ x, x < c) r)
    by (eapply Forall_impl; [exact Hr|]; cbn; lia).
  rewrite (filter_drop_all (λ x, c < x) l)
    by (eapply Forall_impl; [exact Hl|]; cbn; lia).
  rewrite (filter_keep_all (λ x, c < x) r) by done.
  by rewrite app_nil_r.
Qed.

Lemma least_cost_nil a b : least_cost a b [] 0.
Proof.
  split.
  - by exists [].
  - intros order Hperm. apply Permutation_nil_r in Hperm as ->. done.
Qed.

(** The optimality equation: the least cost of a piece is its length plus the
    least, over the choice of the first cut, of the least costs of the two
    parts. *)
Lemma least_cost_step a b cs (va vb : nat → Z) (ks : nat) :
  StronglySorted Z.lt cs →
  Forall (λ c, a ≤ c < b) cs →
  (ks < length cs)%nat →
  (∀ k c, cs !! k = Some c →
          least_cost a c (take k cs) (va k) ∧
          least_cost c b (drop (S k) cs) (vb k)) →
  (∀ k, (k < length cs)%nat → va ks + vb ks ≤ va k + vb k) →
  least_cost a b cs (va ks + vb ks + b - a).
Proof.
  intros Hsorted Hrange Hks Hsub Hmin.
  assert (∀ k c, cs !! k = Some c →
            a ≤ c < b ∧
            Forall (λ x, x < c) (take k cs) ∧
            Forall (λ x, c < x) (drop (S k) cs) ∧
            cs ≡ₚ c :: (take k cs ++ drop (S k) cs)) as Hmid.
  { intros k c Hc. split.
    { eapply (proj1 (Forall_forall _ _) Hrange). by eapply list_elem_of_lookup_2. }
    pose proof (take_drop_middle _ _ _ Hc) as Heq.
    rewrite <- Heq in Hsorted. apply sorted_middle in Hsorted as [Hl Hr].
    split; [done|]. split; [done|].
    rewrite <- Heq at 1. by rewrite Permutation_middle. }
  split.
  - destruct (lookup_lt_is_Some_2 cs ks Hks) as [c Hc].
    destruct (Hsub ks c Hc) as [[(sl & Hsl & Hcl) _] [(sr & Hsr & Hcr) _]].
    destruct (Hmid ks c Hc) as (Hc_range & Hl & Hr & Hperm).
    exists (c :: sl ++ sr). split.
    + by rewrite Hperm, Hsl, Hsr.
    + assert (Forall (λ x, x < c) sl) as Hl' by (by rewrite Hsl).
      assert (Forall (λ x, c < x) sr) as Hr' by (by rewrite Hsr).
      rewrite order_cost_first; [|done|].
      * destruct (filter_sides sl sr c Hl' Hr') as [-> ->].
        lia.
      * intros [Hin|Hin]%elem_of_app.
        -- pose proof (proj1 (Forall_forall _ _) Hl' c Hin) as Hlt. cbn in Hlt. lia.
        -- pose proof (proj1 (Forall_forall _ _) Hr' c Hin) as Hlt. cbn in Hlt. lia.
  - intros order Hperm.
    destruct order as [|x rest].
    { apply Permutation_nil_l in Hperm. subst cs. cbn in Hks. lia. }
    assert (x ∈ cs) as Hx by (rewrite <- Hperm; by left).
    apply list_elem_of_lookup in Hx as [k Hk].
    destruct (Hsub k x Hk) as [[_ Hlow_l] [_ Hlow_r]].
    destruct (Hmid k x Hk) as (Hx_range & Hl & Hr & Hperm').
    assert (rest ≡ₚ take k cs ++ drop (S k) cs) as Hrest.
    { apply (Permutation_cons_inv (a := x)). by rewrite Hperm, <- Hperm'. }
    destruct (filter_sides _ _ x Hl Hr) as [Hfl Hfr].
    rewrite order_cost_first; [|done|].
    + assert (filter (λ c, c < x) rest ≡ₚ take k cs) as Hpl
        by (by rewrite Hrest, Hfl).
      assert (filter (λ c, x < c) rest ≡ₚ drop (S k) cs) as Hpr
        by (by rewrite Hrest, Hfr).
      specialize (Hlow_l _ Hpl). specialize (Hlow_r _ Hpr).
      assert (k < length cs)%nat as Hklt by (by eapply lookup_lt_Some).
      specialize (Hmin k Hklt). lia.
    + rewrite Hrest. intros [Hin|Hin]%elem_of_app.
      * pose proof (proj1 (Forall_forall _ _) Hl x Hin) as Hlt. cbn in Hlt. lia.
      * pose proof (proj1 (Forall_forall _ _) Hr x Hin) as Hlt. cbn in Hlt. lia.
Qed.

End OracleFacts.

(** ** [break_string_cost] against the oracle *)

Module CutsCorrect.
Import Cuts Oracle CutsSpec OracleFacts CutsTable.

Lemma sorted_lookup_lt (l : list Z) (p q : nat) x y :
  StronglySorted Z.lt l → l !! p = Some x → l !! q = Some y → (p < q)%nat → x < y.
Proof.
  intros Hs Hp Hq Hpq.
  rewrite <- (take_drop_middle _ _ _ Hp) in Hs.
  apply sorted_middle in Hs as [_ Hr].
  apply (proj1 (Forall_forall _ _) Hr).
  apply list_elem_of_lookup. exists (q - S p)%nat.
  rewrite lookup_drop, <- Hq. f_equal. lia.
Qed.

Lemma minimum_spec (l : list Z) :
  l ≠ [] → Oracle.minimum l ∈ l ∧ ∀ x, x ∈ l → Oracle.minimum l ≤ x.
Proof.
  destruct l as [|x l]; [done|]. intros _. cbn.
  induction l as [|y l IH]; cbn.
  - split; [by left|]. intros z ->%list_elem_of_singleton. lia.
  - destruct IH as [Hin Hle]. split.
    + destruct (Z.min_spec y (foldr Z.min x l)) as [[_ ->]|[_ ->]].
      * right. by left.
      * apply elem_of_cons in Hin as [->|Hin]; [by left|]. right. by right.
    + intros z [Hz|[Hz|Hz]%elem_of_cons]%elem_of_cons.
      * assert (x ∈ x :: l) as Hx by (by left). apply Hle in Hx. lia.
      * lia.
      * assert (z ∈ x :: l) as Hx by (by right). apply Hle in Hx. lia.
Qed.

(** The oracle computes the least cost. *)
Lemma brute_force_least (string_length : Z) (cuts : list Z) :
  least_cost 0 string_length cuts (brute_force string_length cuts).
Proof.
  unfold brute_force.
  set (costs := order_cost [(0, string_length)] <$> permutations cuts).
  destruct (minimum_spec costs) as [Hin Hle].
  { assert (order_cost [(0, string_length)] cuts ∈ costs) as Hc
      by (apply list_elem_of_fmap_2, permutations_refl).
    intros Heq. rewrite Heq in Hc. by apply not_elem_of_nil in Hc. }
  split.
  - apply list_elem_of_fmap in Hin as (order & Heq & Hperm).
    exists order. split; [|done]. symmetry. by apply permutations_Permutation.
  - intros order Hperm. apply Hle. apply list_elem_of_fmap_2.
    apply permutations_Permutation. by symmetry.
Qed.

Lemma least_cost_unique a b cs v v' :
  least_cost a b cs v → least_cost a b cs v' → v = v'.
Proof.
  intros [(o & Ho & <-) Hle] [(o' & Ho' & <-) Hle'].
  specialize (Hle _ Ho'). specialize (Hle' _ Ho). lia.
Qed.

Section correct.
Variables (string_length : Z) (cuts : list Z).
Hypothesis cuts_sorted : StronglySorted Z.lt cuts.
Hypothesis cuts_range : Forall (λ c, 0 ≤ c < string_length) cuts.

Let n : nat := length cuts.

Lemma seg_end_lookup j c : cuts !! j = Some c → seg_end string_length cuts j = c.
Proof.
  intros Hc. unfold seg_end. pose proof (lookup_lt_Some _ _ _ Hc).
  rewrite decide_False by lia. by rewrite Hc.
Qed.

Lemma seg_start_lookup j c : cuts !! j = Some c → seg_start cuts (S j) = c.
Proof. intros Hc. cbn. by rewrite Hc. Qed.

(** Every cut inside a cell lies within the ends of the cell. *)
Lemma inner_range i j :
  (i ≤ j ≤ n)%nat →
  Forall (λ c, seg_start cuts i ≤ c < seg_end string_length cuts j)
         (inner cuts i j).
Proof.
  intros Hij. apply Forall_forall. intros c Hc.
  apply list_elem_of_lookup in Hc as [k Hk]. unfold inner in Hk.
  pose proof (lookup_lt_Some _ _ _ Hk) as Hlt. rewrite length_take in Hlt.
  rewrite lookup_take_lt, lookup_drop in Hk by lia.
  pose proof (proj1 (Forall_forall _ _) cuts_range c
                (list_elem_of_lookup_2 _ _ _ Hk)) as Hc. cbn in Hc.
  split.
  - destruct i as [|i']; [cbn; lia|].
    destruct (lookup_lt_is_Some_2 cuts i') as [x Hx]; [fold n; lia|].
    rewrite (seg_start_lookup _ _ Hx).
    pose proof (sorted_lookup_lt cuts i' (S i' + k) x c cuts_sorted Hx Hk). lia.
  - unfold seg_end. destruct (decide (length cuts ≤ j)%nat); [lia|].
    destruct (lookup_lt_is_Some_2 cuts j) as [y Hy]; [lia|].
    rewrite Hy. cbn.
    apply (sorted_lookup_lt cuts (i + k) j c y cuts_sorted Hk Hy). lia.
Qed.

Lemma inner_sorted i j : StronglySorted Z.lt (inner cuts i j).
Proof.
  unfold inner.
  pose proof cuts_sorted as Hs. rewrite <- (take_drop i cuts) in Hs.
  apply StronglySorted_app_1_r in Hs.
  rewrite <- (take_drop (j - i) (drop i cuts)) in Hs.
  by apply StronglySorted_app_1_l in Hs.
Qed.

Lemma optimal_diag i : (i ≤ n)%nat → optimal string_length cuts i i 0.
Proof.
  intros _. unfold optimal, inner. rewrite Nat.sub_diag. apply least_cost_nil.
Qed.

Lemma optimal_step (i j ks : nat) (va vb : nat → Z) :
  (i < j ≤ n)%nat → (i ≤ ks < j)%nat →
  (∀ k, (i ≤ k < j)%nat → optimal string_length cuts i k (va k) ∧
        optimal string_length cuts (k + 1) j (vb k)) →
  (∀ k, (i ≤ k < j)%nat → va ks + vb ks ≤ va k + vb k) →
  optimal string_length cuts i j
    (va ks + vb ks + seg_end string_length cuts j - seg_start cuts i).
Proof.
  intros Hij Hks Hsub Hmin. unfold optimal.
  assert (length (inner cuts i j) = (j - i)%nat) as Hlen.
  { unfold inner. rewrite length_take, length_drop. fold n. lia. }
  replace ks with (i + (ks - i))%nat by lia.
  apply (least_cost_step _ _ _ (λ k, va (i + k)%nat) (λ k, vb (i + k)%nat)).
  - apply inner_sorted.
  - apply inner_range. lia.
  - lia.
  - intros k c Hc.
    pose proof (lookup_lt_Some _ _ _ Hc) as Hk. rewrite Hlen in Hk.
    unfold inner in Hc. rewrite lookup_take_lt, lookup_drop in Hc by lia.
    destruct (Hsub (i + k)%nat) as [Ha Hb]; [lia|].
    unfold optimal in Ha, Hb.
    rewrite (seg_end_lookup _ _ Hc) in Ha.
    replace (i + k + 1)%nat with (S (i + k)) in Hb by lia.
    rewrite (seg_start_lookup _ _ Hc) in Hb.
    split.
    + assert (take k (inner cuts i j) = inner cuts i (i + k)) as ->; [|done].
      unfold inner. rewrite take_take. f_equal. lia.
    + assert (drop (S k) (inner cuts i j) = inner cuts (S (i + k)) j) as ->; [|done].
      unfold inner.
      replace (j - i)%nat with (S k + (j - S (i + k)))%nat by lia.
      rewrite <- take_drop_commute, drop_drop. do 2 f_equal. lia.
  - intros k Hk. rewrite Hlen in Hk. cbn.
    replace (i + (ks - i))%nat with ks by lia. apply Hmin. lia.
Qed.

(** The function returns the least cost over all orders of the cuts. *)
Lemma break_string_cost_least :
  ∃ v, break_string_cost string_length cuts = Ok (Int v) ∧
       least_cost 0 string_length cuts v.
Proof.
  destruct (break_table_filled string_length cuts (optimal string_length cuts)
              optimal_diag optimal_step)
    as (dp & Hdp & _ & Hcells).
  destruct (Hcells O n) as (v & s & Hv & Hopt); [lia|].
  exists v. split.
  - unfold break_string_cost. rewrite Hdp. cbn.
    change (get2 dp 0 (Z.of_nat (length cuts)))
      with (get2 dp (Z.of_nat 0) (Z.of_nat n)).
    rewrite (get2_nat _ _ _ _ Hv). done.
  - unfold optimal, inner, seg_end in Hopt. cbn in Hopt.
    rewrite decide_True in Hopt by done.
    rewrite Nat.sub_0_r, take_ge in Hopt by done. done.
Qed.

End correct.

End CutsCorrect.

(** ** Properties of [break_string_cost] *)

Module CutsClaims.
Import Cuts Oracle CutsSpec OracleFacts CutsTable CutsCorrect.

Lemma strictly_increasing_sorted l :
  strictly_increasing l = true → StronglySorted Z.lt l.
Proof.
  intros H. apply Sorted_StronglySorted; [apply _|].
  induction l as [|x [|y l] IH]; [by constructor| by repeat constructor|].
  cbn in H. apply andb_true_iff in H as [Hxy H].
  constructor; [by apply IH|]. constructor. by apply Z.ltb_lt.
Qed.

Lemma in_range_Forall string_length cuts :
  in_range string_length cuts = true →
  Forall (λ c, 0 ≤ c < string_length) cuts.
Proof.
  unfold in_range. rewrite forallb_forall. intros H.
  apply Forall_forall. intros c Hc%list_elem_of_In.
  apply H in Hc. apply andb_true_iff in Hc as [?%Z.leb_le ?%Z.ltb_lt]. lia.
Qed.

(** Whatever the arguments, the loops run to their end without an exception
    and leave an [int] cost in every cell. *)
Lemma break_table_total (string_length : Z) (cuts : list Z) :
  ∃ dp, break_table string_length cuts = Ok dp ∧
    (∀ a b, (a ≤ length cuts)%nat → (b ≤ a)%nat →
            tget dp a b = Some (Int 0, -1)) ∧
    (∀ a b, (a ≤ b ≤ length cuts)%nat → ∃ v s, tget dp a b = Some (Int v, s)).
Proof.
  destruct (break_table_filled string_length cuts (λ _ _ _, True))
    as (dp & Hdp & Hlow & Hup); [done..|].
  exists dp. split; [done|]. split; [done|].
  intros a b Hab. destruct (Hup a b Hab) as (v & s & Hv & _). eauto.
Qed.

Lemma break_string_cost_total (string_length : Z) (cuts : list Z) :
  ∃ v, break_string_cost string_length cuts = Ok (Int v).
Proof.
  destruct (break_table_total string_length cuts) as (dp & Hdp & _ & Hup).
  destruct (Hup O (length cuts)) as (v & s & Hv); [lia|].
  exists v. unfold break_string_cost. rewrite Hdp. cbn.
  change (get2 dp 0 (Z.of_nat (length cuts)))
    with (get2 dp (Z.of_nat 0) (Z.of_nat (length cuts))).
  by rewrite (get2_nat _ _ _ _ Hv).
Qed.

(** C1: for a positive length and at most six strictly increasing cuts in
    range, [break_string_cost] returns the least, over all orders in which
    the cuts can be applied, of the sum of the lengths of the pieces cut. *)
Theorem break_string_cost_brute_force (string_length : Z) (cuts : list Z) :
  0 < string_length →
  strictly_increasing cuts = true →
  (length cuts ≤ 6)%nat →
  in_range string_length cuts = true →
  break_string_cost string_length cuts
  = Ok (Int (brute_force string_length cuts)).
Proof.
  intros _ Hsorted%strictly_increasing_sorted _ Hrange%in_range_Forall.
  destruct (break_string_cost_least string_length cuts Hsorted Hrange)
    as (v & -> & Hv).
  do 2 f_equal.
  apply (least_cost_unique 0 string_length cuts); [done|].
  apply brute_force_least.
Qed.

Lemma break_string_cost_brute_force_witness :
  break_string_cost 20 [2; 8; 10] = Ok (Int (brute_force 20 [2; 8; 10])).
Proof.
  apply (break_string_cost_brute_force 20 [2; 8; 10]);
    [lia | reflexivity | simpl; lia | reflexivity].
Defined.

(** C4: the example of the source, [break_string_cost(20, [2, 8, 10])],
    is 38. *)
Theorem break_string_cost_example :
  break_string_cost 20 [2; 8; 10] = Ok (Int 38).
Proof. reflexivity. Qed.

(** C9: for every length and every list of cuts, valid or not,
    [break_string_cost] runs through without an exception, no index leaves
    its list, every cell the loops fill ends up with an [int] cost in place
    of the [inf] sentinel, and the value returned is an [int]. *)
Theorem break_string_cost_never_raises (string_length : Z) (cuts : list Z) :
  ∃ dp v,
    break_table string_length cuts = Ok dp ∧
    (∀ i j : nat, (i ≤ j ≤ length cuts)%nat →
       ∃ x s, tget dp i j = Some (Int x, s)) ∧
    break_string_cost string_length cuts = Ok (Int v).
Proof.
  destruct (break_table_total string_length cuts) as (dp & Hdp & _ & Hup).
  destruct (break_string_cost_total string_length cuts) as (v & Hv).
  by exists dp, v.
Qed.

Lemma break_string_cost_never_raises_witness :
  ∃ dp v,
    break_table (-3) [7; 7; -1] = Ok dp ∧
    (∃ x s, tget dp 1 2 = Some (Int x, s)) ∧
    break_string_cost (-3) [7; 7; -1] = Ok (Int v).
Proof.
  destruct (break_string_cost_never_raises (-3) [7; 7; -1])
    as (dp & v & Hdp & Hcells & Hv).
  exists dp, v. split; [exact Hdp|]. split; [|exact Hv].
  apply Hcells. simpl. lia.
Defined.

(** C10: with exactly one cut the result is the string length, whatever the
    position of the cut: the position is never read. *)
Theorem break_string_cost_single (string_length c : Z) :
  break_string_cost string_length [c] = Ok (Int string_length).
Proof.
  assert (break_string_cost string_length [c] = Ok (Int (string_length - 0)))
    as -> by reflexivity.
  do 2 f_equal. lia.
Qed.

(** C3, as stated, fails: the two invalid inputs named by the specification
    are accepted and a number comes back. *)
Lemma break_string_cost_accepts_invalid :
  strictly_increasing [5; 3] = false ∧
  break_string_cost 20 [5; 3] = Ok (Int 23) ∧
  in_range 20 [-1; 5] = false ∧
  break_string_cost 20 [-1; 5] = Ok (Int 25).
Proof. repeat split; reflexivity. Qed.

(** C3, amended: the function does not validate its input. When the cuts are
    not strictly increasing, or one of them lies outside
    [0, string_length), it raises nothing and returns an [int]. *)
Theorem break_string_cost_no_validation (string_length : Z) (cuts : list Z) :
  strictly_increasing cuts = false ∨ in_range string_length cuts = false →
  ∃ v, break_string_cost string_length cuts = Ok (Int v).
Proof. intros _. apply break_string_cost_total. Qed.

Lemma break_string_cost_no_validation_witness :
  ∃ v, break_string_cost 20 [5; 3] = Ok (Int v).
Proof.
  apply (break_string_cost_no_validation 20 [5; 3]). left. reflexivity.
Defined.

(** C5, as stated, fails: in the table of the example the cell [(0, 1)],
    for which [j - i = 1], holds the cost 8 and the split index 0. *)
Lemma break_table_width_one_cell :
  ∃ dp, break_table 20 [2; 8; 10] = Ok dp ∧ tget dp 0 1 = Some (Int 8, 0).
Proof. eexists. split; reflexivity. Qed.

(** C5, amended: the cells [(i, j)] with [j - i ≤ 0], the diagonal and the
    triangle below it, keep the cost 0 and the split index -1 they start
    with. *)
Theorem break_table_base_cells (string_length : Z) (cuts : list Z) :
  ∃ dp, break_table string_length cuts = Ok dp ∧
    ∀ i j : nat, (i ≤ length cuts)%nat → (j ≤ i)%nat →
      tget dp i j = Some (Int 0, -1).
Proof.
  destruct (break_table_total string_length cuts) as (dp & Hdp & Hlow & _).
  by exists dp.
Qed.

Lemma break_table_base_cells_witness :
  ∃ dp, break_table 20 [2; 8; 10] = Ok dp ∧ tget dp 2 1 = Some (Int 0, -1).
Proof.
  destruct (break_table_base_cells 20 [2; 8; 10]) as (dp & Hdp & Hcells).
  exists dp. split; [exact Hdp|]. apply Hcells; simpl; lia.
Defined.

End CutsClaims.

(** ** The table of [find_least_seam] *)

Module SeamTable.
Import Seam SeamSpec.

Lemma foldl_window_step n prev cs acc :
  foldl (window_step n prev) acc cs
  = foldl (λ acc c, py_min2 acc (default Inf (prev !! c))) acc
      (column_of n <$> filter (λ c, -1 ≤ c ≤ n - 2) cs).
Proof.
  revert acc. induction cs as [|c cs IH]; intros acc; [done|].
  rewrite filter_cons. cbn [foldl]. rewrite IH. unfold window_step.
  destruct (decide (-1 ≤ c ≤ n - 2)); done.
Qed.

Lemma getitem_window (prev : list num) (c : Z) :
  -1 ≤ c ≤ Z.of_nat (length prev) - 2 →
  getitem prev c
  = Ok (default Inf (prev !! column_of (Z.of_nat (length prev)) c)).
Proof.
  intros Hc. unfold column_of.
  destruct (Z.ltb_spec c 0) as [Hneg|Hpos].
  - assert (c = -1) as -> by lia.
    replace (Z.to_nat (Z.of_nat (length prev) + -1))
      with (length prev - 1)%nat by lia.
    destruct (lookup_lt_is_Some_2 prev (length prev - 1)) as [x Hx]; [lia|].
    rewrite Hx. by apply getitem_minus_one.
  - destruct (lookup_lt_is_Some_2 prev (Z.to_nat c)) as [x Hx]; [lia|].
    rewrite Hx. cbn. rewrite <- (getitem_nat _ _ _ Hx). f_equal. lia.
Qed.

(** [for k in range(-1, 2)] with a body that never raises. *)
Lemma for_range_three {St} (body : Z → St → result St) (g : St → Z → St) s :
  (∀ k v, body k v = Ok (g v k)) →
  for_range (-1) 2 body s = Ok (g (g (g s (-1)) 0) 1).
Proof.
  intros Hbody. unfold for_range.
  change (Z.to_nat (2 - -1)) with 3%nat. cbn.
  rewrite Hbody. cbn. rewrite Hbody. cbn. by rewrite Hbody.
Qed.

(** The loop over [k] for the 1-based row [r + 2] and the 0-based column [j]. *)
Lemma window_loop (dp : list (list num)) (prev : list num) (r j : nat) :
  dp !! r = Some prev →
  for_range (-1) 2 (λ k valid,
    if (k + (Z.of_nat j + 1) <? Z.of_nat (length prev))
       && (0 <=? k + (Z.of_nat j + 1))
    then x ← get2 dp (Z.of_nat r) (k + (Z.of_nat j + 1) - 1); Ok (py_min2 valid x)
    else Ok valid) Inf
  = Ok (min_over prev
          (column_of (Z.of_nat (length prev))
             <$> used_window (Z.of_nat (length prev)) (Z.of_nat j))).
Proof.
  intros Hprev. set (n := Z.of_nat (length prev)).
  unfold min_over, used_window. rewrite <- foldl_window_step.
  assert (∀ k valid,
    (if (k + (Z.of_nat j + 1) <? n) && (0 <=? k + (Z.of_nat j + 1))
     then x ← get2 dp (Z.of_nat r) (k + (Z.of_nat j + 1) - 1); Ok (py_min2 valid x)
     else Ok valid)
    = Ok (window_step n prev valid (Z.of_nat j + k))) as Hbody.
  { intros k valid. unfold window_step.
    destruct (decide (-1 ≤ Z.of_nat j + k ≤ n - 2)) as [Hin|Hout].
    - replace (k + (Z.of_nat j + 1) <? n) with true
        by (symmetry; apply Z.ltb_lt; lia).
      replace (0 <=? k + (Z.of_nat j + 1)) with true
        by (symmetry; apply Z.leb_le; lia).
      cbn. unfold get2. rewrite (getitem_nat _ _ _ Hprev). cbn.
      replace (k + (Z.of_nat j + 1) - 1) with (Z.of_nat j + k) by lia.
      rewrite getitem_window by (fold n; lia). done.
    - destruct (Z.ltb_spec (k + (Z.of_nat j + 1)) n);
        destruct (Z.leb_spec 0 (k + (Z.of_nat j + 1))); cbn; try done; lia. }
  rewrite (for_range_three _ (λ valid k, window_step n prev valid (Z.of_nat j + k)))
    by exact Hbody.
  cbn [foldl]. do 4 f_equal; lia.
Qed.

Lemma tset_length {A} (t : list (list A)) i j v : length (tset t i j v) = length t.
Proof. unfold tset. destruct (t !! i); [apply length_insert|done]. Qed.

Lemma tset_row_ne {A} (t : list (list A)) i j v i' :
  i ≠ i' → tset t i j v !! i' = t !! i'.
Proof.
  intros Hne. unfold tset. destruct (t !! i); [|done].
  by apply list_lookup_insert_ne.
Qed.

Lemma tset_row_lengths {A} (t : list (list A)) i j v (n : nat) :
  Forall (λ row, length row = n) t →
  Forall (λ row, length row = n) (tset t i j v).
Proof.
  intros Ht. unfold tset. destruct (t !! i) as [row|] eqn:Hrow; [|done].
  apply Forall_insert; [done|]. rewrite length_insert.
  by apply (proj1 (Forall_lookup _ _) Ht i).
Qed.

Lemma tget_shape {A} (t : list (list A)) (m n a b : nat) :
  length t = m → Forall (λ row, length row = n) t →
  (a < m)%nat → (b < n)%nat → is_Some (tget t a b).
Proof.
  intros Hm Hn Ha Hb. unfold tget.
  destruct (lookup_lt_is_Some_2 t a) as [row Hrow]; [lia|].
  rewrite Hrow. cbn. apply lookup_lt_is_Some_2.
  rewrite (proj1 (Forall_lookup _ _) Hn a row Hrow). done.
Qed.

Section seam_invariant.
Variables (d : list (list Z)) (m n : nat).
Hypothesis d_rows : length d = m.
Hypothesis d_cols : Forall (λ row, length row = n) d.

Lemma fill_seam_cell_filled (r c : nat) dp :
  (r < m)%nat → (c < n)%nat → seam_filled d m n r c dp →
  ∃ dp', fill_cell d (Z.of_nat n) (Z.of_nat r + 1) (Z.of_nat c + 1) dp = Ok dp' ∧
         seam_filled d m n r (c + 1) dp'.
Proof.
  intros Hr Hc (Hlen & Hrows & Hcells).
  destruct (tget_shape d m n r c) as [x Hx]; [done..|].
  destruct (tget_shape dp m n r c) as [old Hold]; [done..|].
  assert (∀ v, cell_ok d n (tset dp r c v) r c →
            ∃ dp', set2 dp (Z.of_nat r) (Z.of_nat c) v = Ok dp' ∧
                   seam_filled d m n r (c + 1) dp') as Hstore.
  { intros v Hv. exists (tset dp r c v). split; [by eapply set2_nat|].
    split; [by rewrite tset_length|]. split; [by apply tset_row_lengths|].
    intros a b Ha Hb Hab.
    destruct (decide ((r, c) = (a, b))) as [[= <- <-]|Hne]; [done|].
    destruct (Hcells a b) as (y & Hy & Hcell); [lia..| |].
    { destruct Hab as [?|[-> ?]]; [by left|right]. split; [done|].
      destruct (decide (b = c)) as [->|?]; [done|lia]. }
    exists y. split; [done|]. rewrite tget_tset_ne by done.
    destruct a as [|a']; [done|].
    destruct Hcell as (prev & Hprev & Hcell). exists prev. split; [|done].
    rewrite tset_row_ne by lia. done. }
  unfold fill_cell.
  replace (Z.of_nat r + 1 - 1) with (Z.of_nat r) by lia.
  replace (Z.of_nat c + 1 - 1) with (Z.of_nat c) by lia.
  rewrite (get2_nat _ _ _ _ Hx).
  destruct r as [|r'].
  - cbn. apply Hstore. exists x. split; [done|].
    by rewrite (tget_tset_eq _ _ _ _ _ Hold).
  - replace (Z.of_nat (S r') + 1 =? 1) with false
      by (symmetry; apply Z.eqb_neq; lia).
    replace (Z.of_nat (S r') + 1 - 2) with (Z.of_nat r') by lia.
    destruct (lookup_lt_is_Some_2 dp r') as [prev Hprev]; [lia|].
    assert (length prev = n) as Hn
      by apply (proj1 (Forall_lookup _ _) Hrows r' prev Hprev).
    pose proof (window_loop dp prev r' c Hprev) as Hloop.
    rewrite Hn in Hloop. cbn. rewrite Hloop. cbn.
    apply Hstore. exists x. split; [done|]. exists prev. split.
    + rewrite tset_row_ne by lia. done.
    + by rewrite (tget_tset_eq _ _ _ _ _ Hold).
Qed.

(** The whole table, for a grid of [m] rows and [n] columns. *)
Lemma seam_table_filled :
  ∃ dp, seam_table d (Z.of_nat m) (Z.of_nat n) = Ok dp ∧ seam_filled d m n m 0 dp.
Proof.
  unfold seam_table. rewrite !Nat2Z.id.
  set (dp0 := replicate m (replicate n (Int 0))).
  destruct (for_range_inv (λ y dp, seam_filled d m n (Z.to_nat (y - 1)) 0 dp)
              (λ i dp, for_range 1 (Z.of_nat n + 1)
                         (λ j dp, fill_cell d (Z.of_nat n) i j dp) dp)
              1 (Z.of_nat m + 1) dp0) as (dp & Hloop & Hdp).
  - lia.
  - split; [apply length_replicate|]. split.
    + apply Forall_replicate. apply length_replicate.
    + intros a b _ _ [?|[_ ?]]; lia.
  - intros y dp Hy Hdp.
    assert (∃ r : nat, y = Z.of_nat r + 1) as [r ->]
      by (exists (Z.to_nat (y - 1)); lia).
    replace (Z.to_nat (Z.of_nat r + 1 - 1)) with r in Hdp by lia.
    destruct (for_range_inv (λ x dp, seam_filled d m n r (Z.to_nat (x - 1)) dp)
                (λ j dp, fill_cell d (Z.of_nat n) (Z.of_nat r + 1) j dp)
                1 (Z.of_nat n + 1) dp) as (dp' & Hloop & Hdp').
    + lia.
    + done.
    + intros x t Hx Ht.
      assert (∃ c : nat, x = Z.of_nat c + 1) as [c ->]
        by (exists (Z.to_nat (x - 1)); lia).
      replace (Z.to_nat (Z.of_nat c + 1 - 1)) with c in Ht by lia.
      destruct (fill_seam_cell_filled r c t) as (t' & Ht' & Hfilled); [lia..|done|].
      exists t'. split; [done|].
      by replace (Z.to_nat (Z.of_nat c + 1 + 1 - 1)) with (c + 1)%nat by lia.
    + exists dp'. split; [done|].
      replace (Z.to_nat (Z.of_nat n + 1 - 1)) with n in Hdp' by lia.
      replace (Z.to_nat (Z.of_nat r + 1 + 1 - 1)) with (r + 1)%nat by lia.
      destruct Hdp' as (Hlen & Hrows & Hcells). split; [done|]. split; [done|].
      intros a b Ha Hb Hab. apply Hcells; [done..|].
      destruct Hab as [?|[_ ?]]; [|lia].
      destruct (decide (a = r)); [right|left]; lia.
  - exists dp. split; [done|].
    by replace (Z.to_nat (Z.of_nat m + 1 - 1)) with m in Hdp by lia.
Qed.

End seam_invariant.

End SeamTable.

(** ** Monotonicity of [find_least_seam]

    Two runs on grids of the same shape, the second with entries at least as
    large, are compared step by step: they raise the same exceptions, and
    where they return, the second result is at least the first. *)

Module SeamMono.
Import Seam SeamSpec.

Lemma bind_rel {A B A' B'} (R : A → B → Prop) (R' : A' → B' → Prop)
    (r1 : result A) (r2 : result B) (f : A → result A') (g : B → result B') :
  res_rel R r1 r2 → (∀ a b, R a b → res_rel R' (f a) (g b)) →
  res_rel R' (r1 ≫= f) (r2 ≫= g).
Proof. destruct r1, r2; cbn; intros H Hfg; try done. by apply Hfg. Qed.

Lemma num_le_refl a : num_le a a.
Proof. destruct a; cbn; lia. Qed.

Lemma num_add_mono a a' b b' :
  num_le a a' → num_le b b' → num_le (num_add a b) (num_add a' b').
Proof. destruct a, a', b, b'; cbn; lia. Qed.

Lemma py_min2_mono a a' b b' :
  num_le a a' → num_le b b' → num_le (py_min2 a b) (py_min2 a' b').
Proof.
  unfold py_min2. destruct a, a', b, b'; cbn; try lia;
    repeat match goal with
           | |- context [?x <? ?y] => destruct (Z.ltb_spec x y)
           end; cbn; lia.
Qed.

Lemma py_min_rel l l' :
  Forall2 num_le l l' → res_rel num_le (py_min l) (py_min l').
Proof.
  destruct 1 as [|x x' l l' Hx Hl]; cbn; [done|].
  revert x x' Hx. induction Hl as [|y y' l l' Hy _ IH]; intros x x' Hx; cbn.
  - done.
  - apply IH. by apply py_min2_mono.
Qed.

Section indexing_rel.
Context {A B : Type} (R : A → B → Prop).

Lemma py_index_rel (l : list A) (k : list B) i :
  Forall2 R l k → py_index l i = py_index k i.
Proof. intros H. unfold py_index. by rewrite (Forall2_length _ _ _ H). Qed.

Lemma getitem_rel (l : list A) (k : list B) i :
  Forall2 R l k → res_rel R (getitem l i) (getitem k i).
Proof.
  intros H. unfold getitem. rewrite (py_index_rel l k i H).
  destruct (py_index k i) as [p|e]; cbn; [|done].
  destruct (l !! p) as [x|] eqn:Hx.
  - destruct (Forall2_lookup_l _ _ _ _ _ H Hx) as (y & -> & Hxy). done.
  - apply lookup_ge_None in Hx. rewrite (Forall2_length _ _ _ H) in Hx.
    apply lookup_ge_None in Hx. by rewrite Hx.
Qed.

Lemma setitem_rel (l : list A) (k : list B) i x y :
  Forall2 R l k → R x y → res_rel (Forall2 R) (setitem l i x) (setitem k i y).
Proof.
  intros H Hxy. unfold setitem. rewrite (py_index_rel l k i H).
  destruct (py_index k i) as [p|e]; cbn; [|done]. by apply Forall2_insert.
Qed.

End indexing_rel.

Lemma get2_rel {A B} (R : A → B → Prop) (t : list (list A)) (u : list (list B)) i j :
  Forall2 (Forall2 R) t u → res_rel R (get2 t i j) (get2 u i j).
Proof.
  intros H. unfold get2. eapply bind_rel; [by apply getitem_rel|].
  intros row row' Hrow. by apply getitem_rel.
Qed.

Lemma set2_rel {A B} (R : A → B → Prop) (t : list (list A)) (u : list (list B))
    i j x y :
  Forall2 (Forall2 R) t u → R x y →
  res_rel (Forall2 (Forall2 R)) (set2 t i j x) (set2 u i j y).
Proof.
  intros H Hxy. unfold set2. eapply bind_rel; [by apply getitem_rel|].
  intros row row' Hrow. eapply bind_rel; [by apply setitem_rel|].
  intros new new' Hnew. by apply setitem_rel.
Qed.

Lemma iter_from_rel {St St'} (R : St → St' → Prop)
    (body : Z → St → result St) (body' : Z → St' → result St') cnt x s s' :
  (∀ y t t', R t t' → res_rel R (body y t) (body' y t')) →
  R s s' →
  res_rel R (iter_from cnt x body s) (iter_from cnt x body' s').
Proof.
  intros Hbody. revert x s s'.
  induction cnt as [|cnt IH]; intros x s s' Hs; cbn; [done|].
  eapply bind_rel; [by apply Hbody|]. intros t t' Ht. by apply IH.
Qed.

Lemma for_range_rel {St St'} (R : St → St' → Prop)
    (body : Z → St → result St) (body' : Z → St' → result St') lo hi s s' :
  (∀ y t t', R t t' → res_rel R (body y t) (body' y t')) →
  R s s' →
  res_rel R (for_range lo hi body s) (for_range lo hi body' s').
Proof. apply iter_from_rel. Qed.

Lemma fill_cell_rel d d' n i j dp dp' :
  grid_le d d' → table_le dp dp' →
  res_rel table_le (fill_cell d n i j dp) (fill_cell d' n i j dp').
Proof.
  intros Hd Hdp. unfold fill_cell. destruct (i =? 1).
  - eapply bind_rel; [by apply get2_rel|].
    intros x x' Hx. by apply set2_rel.
  - eapply bind_rel.
    + apply (for_range_rel num_le); [|done].
      intros k valid valid' Hvalid.
      destruct ((k + j <? n) && (0 <=? k + j)); [|done].
      eapply bind_rel; [by apply get2_rel|].
      intros x x' Hx. cbn. by apply py_min2_mono.
    + intros valid valid' Hvalid.
      eapply bind_rel; [by apply get2_rel|].
      intros x x' Hx. apply set2_rel; [done|]. by apply num_add_mono.
Qed.

Lemma seam_table_rel d d' m n :
  grid_le d d' → res_rel table_le (seam_table d m n) (seam_table d' m n).
Proof.
  intros Hd. unfold seam_table. apply (for_range_rel table_le).
  - intros i dp dp' Hdp. apply (for_range_rel table_le); [|done].
    intros j t t' Ht. by apply fill_cell_rel.
  - apply Forall2_replicate, Forall2_replicate. cbn. lia.
Qed.

(** Raising entries of the grid, its shape unchanged, cannot lower the
    result, and cannot change which exception is raised. *)
Lemma find_least_seam_rel d d' m n :
  grid_le d d' → res_le (find_least_seam d m n) (find_least_seam d' m n).
Proof.
  intros Hd. unfold find_least_seam, res_le.
  eapply bind_rel; [by apply seam_table_rel|].
  intros dp dp' Hdp. eapply bind_rel; [by apply getitem_rel|].
  intros row row' Hrow. by apply py_min_rel.
Qed.

Lemma grid_le_tset d r c old v :
  tget d r c = Some old → old ≤ v → grid_le d (tset d r c v).
Proof.
  unfold tget, tset, grid_le. destruct (d !! r) as [row|] eqn:Hrow; [|done].
  cbn. intros Hold Hle.
  rewrite <- (list_insert_id d r row Hrow) at 1.
  apply Forall2_insert.
  - apply Forall_Forall2_diag, Forall_forall. intros row' _.
    apply Forall_Forall2_diag, Forall_forall. intros x _. lia.
  - rewrite <- (list_insert_id row c old Hold) at 1.
    apply Forall2_insert; [|done].
    apply Forall_Forall2_diag, Forall_forall. intros x _. lia.
Qed.

End SeamMono.

(** ** Properties of [find_least_seam] *)

Module SeamClaims.
Import Seam SeamSpec SeamTable SeamMono.

Lemma py_min2_Inf p : py_min2 Inf p = p.
Proof. by destruct p. Qed.

Lemma py_min2_again a b : py_min2 (py_min2 a b) a = py_min2 a b.
Proof.
  unfold py_min2. destruct a as [x|], b as [y|]; cbn; try done.
  - destruct (Z.ltb_spec y x); cbn.
    + destruct (Z.ltb_spec x y); [lia|done].
    + by rewrite Z.ltb_irrefl.
  - by rewrite Z.ltb_irrefl.
Qed.

Lemma used_window_cases n j :
  used_window n j
  = (if decide (-1 ≤ j - 1 ≤ n - 2) then [j - 1] else [])
    ++ (if decide (-1 ≤ j ≤ n - 2) then [j] else [])
    ++ (if decide (-1 ≤ j + 1 ≤ n - 2) then [j + 1] else []).
Proof.
  unfold used_window. rewrite !filter_cons, filter_nil.
  repeat case_decide; done.
Qed.

(** Column 0 looks at the last column of the previous row, at column 0 and
    at column 1. *)
Lemma window_first_column (n : nat) (prev : list num) :
  (2 ≤ n)%nat →
  min_over prev (column_of (Z.of_nat n) <$> used_window (Z.of_nat n) 0)
  = min_over prev [(n - 1)%nat; 0%nat; 1%nat].
Proof.
  intros Hn. rewrite used_window_cases.
  rewrite decide_True, decide_True by lia.
  assert (column_of (Z.of_nat n) (0 - 1) = (n - 1)%nat) as Hlast
    by (unfold column_of; change (0 - 1 <? 0) with true; cbv iota; lia).
  destruct (decide (-1 ≤ 0 + 1 ≤ Z.of_nat n - 2)) as [Hwide|Hnarrow].
  - cbn [app fmap list_fmap]. rewrite Hlast. done.
  - assert (n = 2)%nat as -> by lia. cbn. rewrite Hlast.
    change (column_of (Z.of_nat 2) 0) with 0%nat.
    by rewrite !py_min2_Inf, py_min2_again.
Qed.

(** The last column looks at column [n - 2] of the previous row only. *)
Lemma window_last_column (n : nat) (prev : list num) p :
  (2 ≤ n)%nat → prev !! (n - 2)%nat = Some p →
  min_over prev (column_of (Z.of_nat n)
                   <$> used_window (Z.of_nat n) (Z.of_nat (n - 1)))
  = p.
Proof.
  intros Hn Hp. rewrite used_window_cases.
  rewrite decide_True, decide_False, decide_False by lia.
  cbn [app fmap list_fmap]. unfold min_over. cbn [foldl].
  assert (column_of (Z.of_nat n) (Z.of_nat (n - 1) - 1) = (n - 2)%nat) as ->.
  { unfold column_of.
    replace (Z.of_nat (n - 1) - 1 <? 0) with false
      by (symmetry; apply Z.ltb_ge; lia). lia. }
  rewrite Hp. apply py_min2_Inf.
Qed.

Lemma py_min2_int a b : is_int a → is_int b → is_int (py_min2 a b).
Proof. intros [x ->] [y ->]. unfold py_min2. destruct (num_ltb _ _); by eexists. Qed.

Lemma fold_py_min2_int (l : list num) a :
  is_int a → Forall is_int l → is_int (fold_left py_min2 l a).
Proof.
  intros Ha Hl. revert a Ha. induction Hl as [|b l Hb _ IH]; intros a Ha; [done|].
  cbn. apply IH. by apply py_min2_int.
Qed.

(** The window is never empty, so [valid] is an [int] of the previous row
    when that row holds [int]s. *)
Lemma min_over_window_int (n j : nat) (prev : list num) :
  (j < n)%nat → length prev = n → Forall is_int prev →
  is_int (min_over prev (column_of (Z.of_nat n)
                           <$> used_window (Z.of_nat n) (Z.of_nat j))).
Proof.
  intros Hj Hlen Hprev.
  assert (∀ c, -1 ≤ c ≤ Z.of_nat n - 2 →
            is_int (default Inf (prev !! column_of (Z.of_nat n) c))) as Hcol.
  { intros c Hc.
    destruct (lookup_lt_is_Some_2 prev (column_of (Z.of_nat n) c)) as [p Hp].
    { unfold column_of. destruct (Z.ltb_spec c 0); lia. }
    rewrite Hp. cbn. apply (proj1 (Forall_lookup _ _) Hprev _ _ Hp). }
  rewrite used_window_cases, decide_True by lia.
  unfold min_over. cbn [app fmap list_fmap foldl]. rewrite py_min2_Inf.
  assert (∀ a cs, is_int a →
            is_int (foldl (λ acc c, py_min2 acc (default Inf (prev !! c))) a
                      (column_of (Z.of_nat n)
                         <$> filter (λ c, -1 ≤ c ≤ Z.of_nat n - 2) cs))) as Hfold.
  { intros a cs. revert a. induction cs as [|c cs IH]; intros a Ha; [done|].
    rewrite filter_cons. case_decide; [|by apply IH].
    cbn. apply IH. apply py_min2_int; [done|]. by apply Hcol. }
  specialize (Hfold (default Inf (prev !! column_of (Z.of_nat n) (Z.of_nat j - 1)))
                [Z.of_nat j; Z.of_nat j + 1]
                (Hcol (Z.of_nat j - 1) ltac:(lia))).
  rewrite !filter_cons, filter_nil in Hfold.
  repeat case_decide; exact Hfold.
Qed.

(** On a grid of [m ≥ 1] rows and [n ≥ 1] columns the function returns an
    [int]. *)
Lemma find_least_seam_returns (d : list (list Z)) (m n : nat) :
  (1 ≤ m)%nat → (1 ≤ n)%nat →
  length d = m → Forall (λ row, length row = n) d →
  ∃ v, find_least_seam d (Z.of_nat m) (Z.of_nat n) = Ok (Int v).
Proof.
  intros Hm Hn Hrows Hcols.
  destruct (seam_table_filled d m n Hrows Hcols)
    as (dp & Hdp & Hlen & Hlens & Hcells).
  assert (∀ a row, (a < m)%nat → dp !! a = Some row → Forall is_int row) as Hint.
  { induction a as [|a IH]; intros row Ha Hrow; apply Forall_lookup; intros b p Hp.
    - assert (b < n)%nat as Hb.
      { rewrite <- (proj1 (Forall_lookup _ _) Hlens _ _ Hrow).
        by eapply lookup_lt_Some. }
      destruct (Hcells O b) as (x & _ & Hcell); [lia..|].
      assert (tget dp 0 b = Some p) as Hget by (unfold tget; by rewrite Hrow).
      exists x. congruence.
    - assert (b < n)%nat as Hb.
      { rewrite <- (proj1 (Forall_lookup _ _) Hlens _ _ Hrow).
        by eapply lookup_lt_Some. }
      destruct (Hcells (S a) b) as (x & _ & prev & Hprev & Hcell); [lia..|].
      assert (tget dp (S a) b = Some p) as Hget by (unfold tget; by rewrite Hrow).
      destruct (min_over_window_int n b prev) as [z Hz]; [done| |by eapply IH; [lia|]|].
      { apply (proj1 (Forall_lookup _ _) Hlens _ _ Hprev). }
      rewrite Hz in Hcell. cbn in Hcell. exists (x + z). congruence. }
  destruct (lookup_lt_is_Some_2 dp (m - 1)) as [row Hrow]; [lia|].
  unfold find_least_seam. rewrite Hdp. cbn.
  replace (Z.of_nat m - 1) with (Z.of_nat (m - 1)) by lia.
  rewrite (getitem_nat _ _ _ Hrow). cbn.
  pose proof (Hint (m - 1)%nat row ltac:(lia) Hrow) as Hrow_int.
  pose proof (proj1 (Forall_lookup _ _) Hlens _ _ Hrow) as Hrow_len.
  destruct row as [|p row]; [cbn in Hrow_len; lia|].
  apply Forall_cons in Hrow_int as [Hp Hrest].
  destruct (fold_py_min2_int row p Hp Hrest) as [v Hv].
  exists v. cbn. by rewrite Hv.
Qed.

(** C8: for a grid of at least two rows and two columns, the predecessor
    window of the 0-based column [j] is [{j-1, j, j+1} ∩ [-1, n-2]], the
    index -1 standing for the last column: column 0 wraps around to column
    [n-1], and column [n-1] sees column [n-2] only. *)
Theorem find_least_seam_window (d : list (list Z)) (m n : nat) :
  (2 ≤ m)%nat → (2 ≤ n)%nat →
  length d = m → Forall (λ row, length row = n) d →
  wrapped_window d m n.
Proof.
  intros Hm Hn Hrows Hcols.
  destruct (seam_table_filled d m n Hrows Hcols)
    as (dp & Hdp & Hlen & Hlens & Hcells).
  exists dp. split; [done|]. intros i Hi.
  destruct (lookup_lt_is_Some_2 dp (i - 1)) as [prev Hprev]; [lia|].
  assert (length prev = n) as Hprev_len
    by apply (proj1 (Forall_lookup _ _) Hlens _ _ Hprev).
  assert (∀ j x, (j < n)%nat → tget d i j = Some x →
            tget dp i j
            = Some (num_add (Int x)
                      (min_over prev
                         (column_of (Z.of_nat n)
                            <$> used_window (Z.of_nat n) (Z.of_nat j)))))
    as Hwindow.
  { intros j x Hj Hx.
    destruct (Hcells i j) as (x' & Hx' & Hcell); [lia..|].
    assert (x' = x) as -> by congruence.
    destruct i as [|i']; [lia|].
    destruct Hcell as (prev' & Hprev' & ->).
    replace (S i' - 1)%nat with i' in Hprev by lia.
    by assert (prev' = prev) as -> by congruence. }
  exists prev. split; [done|]. split; [done|]. split; [done|]. split.
  - intros x Hx. rewrite (Hwindow O x) by (done || lia).
    change (Z.of_nat 0) with 0.
    by rewrite (window_first_column n prev Hn).
  - intros x p Hx Hp. rewrite (Hwindow (n - 1)%nat x) by (done || lia).
    by rewrite (window_last_column n prev p Hn Hp).
Qed.

Lemma find_least_seam_window_witness :
  wrapped_window [[1; 2; 3]; [4; 5; 6]; [7; 8; 9]] 3 3.
Proof.
  apply find_least_seam_window;
    [simpl; lia | simpl; lia | reflexivity | repeat constructor].
Defined.

(** C6: on the grid [[1,2,3],[4,5,6],[7,8,9]] the rows of the table are
    [1,2,3], [5,6,8] and [12,13,15], and the result is 12. *)
Theorem find_least_seam_example :
  seam_table [[1; 2; 3]; [4; 5; 6]; [7; 8; 9]] 3 3
  = Ok [[Int 1; Int 2; Int 3]; [Int 5; Int 6; Int 8]; [Int 12; Int 13; Int 15]] ∧
  find_least_seam [[1; 2; 3]; [4; 5; 6]; [7; 8; 9]] 3 3 = Ok (Int 12).
Proof. split; reflexivity. Qed.

(** C7: replacing one entry of the grid by a larger value never lowers the
    result (and never changes whether, or which, exception is raised). *)
Theorem find_least_seam_monotone (d : list (list Z)) (m n : Z) (r c : nat)
    (old v : Z) :
  tget d r c = Some old → old ≤ v →
  res_le (find_least_seam d m n) (find_least_seam (tset d r c v) m n).
Proof.
  intros Hold Hle. apply find_least_seam_rel. by eapply grid_le_tset.
Qed.

Lemma find_least_seam_monotone_witness :
  res_le (find_least_seam [[1; 2; 3]; [4; 5; 6]; [7; 8; 9]] 3 3)
         (find_least_seam (tset [[1; 2; 3]; [4; 5; 6]; [7; 8; 9]] 0 0 40) 3 3).
Proof.
  apply (find_least_seam_monotone _ 3 3 0 0 1 40); [reflexivity | lia].
Defined.

(** C2 does not hold of the code. On the grid [[5,1],[9,0]] the last column
    of row 1 is given [0 + 5], from column 0 alone, where the window
    [{j-1, j, j+1} ∩ [0, n)] of the specification gives [0 + min(5, 1)]; the
    function returns 5 although the path down column 1 costs 1. *)
Theorem find_least_seam_off_by_one :
  let d := [[5; 1]; [9; 0]] in
  seam_table d 2 2 = Ok [[Int 5; Int 1]; [Int 10; Int 5]] ∧
  num_add (Int 0) (min_over [Int 5; Int 1] (Z.to_nat <$> clamped_window 2 1))
  = Int 1 ∧
  find_least_seam d 2 2 = Ok (Int 5) ∧
  path_ok 2 [1; 1]%nat = true ∧
  path_cost d [1; 1]%nat = Some 1.
Proof. repeat split; reflexivity. Qed.

End SeamClaims.

(** ** Further properties of [find_least_seam] *)

Module SeamExtra.
Import Seam SeamSpec SeamPaths SeamTable SeamMono SeamClaims.

Lemma getitem_of_nat {A} (l : list A) (k : nat) :
  getitem l (Z.of_nat k)
  = match l !! k with Some x => Ok x | None => Raise IndexError end.
Proof.
  destruct (l !! k) as [x|] eqn:Hk; [by apply getitem_nat|].
  apply lookup_ge_None in Hk. unfold getitem, py_index.
  replace (Z.of_nat k <? Z.of_nat (length l)) with false
    by (symmetry; apply Z.ltb_ge; lia).
  replace (Z.of_nat k <? 0) with false by (symmetry; apply Z.ltb_ge; lia).
  by rewrite !andb_false_r.
Qed.

Lemma getitem_nil {A} (i : Z) : getitem (@nil A) i = Raise IndexError.
Proof.
  unfold getitem, py_index. cbn [length].
  destruct (Z.leb_spec 0 i), (Z.ltb_spec i (Z.of_nat 0)),
    (Z.leb_spec (- Z.of_nat 0) i), (Z.ltb_spec i 0); cbn; try done; lia.
Qed.

Lemma get2_of_nat {A} (t : list (list A)) (i j : nat) :
  get2 t (Z.of_nat i) (Z.of_nat j)
  = match tget t i j with Some x => Ok x | None => Raise IndexError end.
Proof.
  unfold get2, tget. rewrite getitem_of_nat.
  destruct (t !! i) as [row|]; cbn; [|done]. apply getitem_of_nat.
Qed.

Lemma iter_from_ext {St} (body body' : Z → St → result St) cnt x s :
  (∀ y t, x ≤ y < x + Z.of_nat cnt → body y t = body' y t) →
  iter_from cnt x body s = iter_from cnt x body' s.
Proof.
  revert x s. induction cnt as [|cnt IH]; intros x s Hext; [done|].
  cbn. rewrite Hext by lia. destruct (body' x s) as [t|e]; cbn; [|done].
  apply IH. intros y u Hy. apply Hext. lia.
Qed.

Lemma for_range_ext {St} (body body' : Z → St → result St) lo hi s :
  (∀ y t, lo ≤ y < hi → body y t = body' y t) →
  for_range lo hi body s = for_range lo hi body' s.
Proof.
  intros Hext. apply iter_from_ext. intros y t Hy. apply Hext. lia.
Qed.

Lemma for_range_skip {St} (body : Z → St → result St) lo hi s :
  (∀ y t, body y t = Ok t) → for_range lo hi body s = Ok s.
Proof.
  intros Hbody. unfold for_range.
  generalize (Z.to_nat (hi - lo)) as cnt. intros cnt. revert lo s.
  induction cnt as [|cnt IH]; intros lo s; [done|].
  cbn. rewrite Hbody. cbn. apply IH.
Qed.

(** X6: with [m ≤ 0] no row is built, the last row [dp[m - 1]] does not
    exist and [IndexError] is raised, whatever the grid and [n]. *)
Lemma find_least_seam_no_rows (d : list (list Z)) (m n : Z) :
  m ≤ 0 → find_least_seam d m n = Raise IndexError.
Proof.
  intros Hm. unfold find_least_seam, seam_table.
  replace (Z.to_nat m) with O by lia.
  unfold for_range at 1. replace (Z.to_nat (m + 1 - 1)) with O by lia. cbn.
  by rewrite getitem_nil.
Qed.

Lemma find_least_seam_no_rows_witness :
  find_least_seam [[1; 2]; [3; 4]] 0 2 = Raise IndexError.
Proof. apply find_least_seam_no_rows. lia. Defined.

(** X7: with [m ≥ 1] and [n ≤ 0] the rows of the table are empty, the grid
    is never read, and [min] of the empty last row raises [ValueError]. *)
Lemma find_least_seam_no_columns (d : list (list Z)) (m n : Z) :
  1 ≤ m → n ≤ 0 → find_least_seam d m n = Raise ValueError.
Proof.
  intros Hm Hn. unfold find_least_seam, seam_table.
  replace (Z.to_nat n) with O by lia.
  rewrite for_range_skip.
  - cbn. replace (m - 1) with (Z.of_nat (Z.to_nat m - 1)) by lia.
    rewrite getitem_of_nat, lookup_replicate_2 by lia. done.
  - intros i dp. unfold for_range.
    by replace (Z.to_nat (n + 1 - 1)) with O by lia.
Qed.

Lemma find_least_seam_no_columns_witness :
  find_least_seam [[1; 2]; [3; 4]] 2 0 = Raise ValueError.
Proof. apply find_least_seam_no_columns; lia. Defined.

(** X4: only the first [m] rows and [n] columns of the grid are read: two
    grids that agree there, present and missing cells alike, give the same
    outcome. *)
Lemma find_least_seam_reads_block (d d' : list (list Z)) (m n : Z) :
  (∀ i j : nat, Z.of_nat i < m → Z.of_nat j < n → tget d i j = tget d' i j) →
  find_least_seam d m n = find_least_seam d' m n.
Proof.
  intros Hblock. unfold find_least_seam.
  assert (seam_table d m n = seam_table d' m n) as ->; [|done].
  unfold seam_table. apply for_range_ext. intros i dp Hi.
  apply for_range_ext. intros j t Hj.
  assert (get2 d (i - 1) (j - 1) = get2 d' (i - 1) (j - 1)) as Hget.
  { replace (i - 1) with (Z.of_nat (Z.to_nat (i - 1))) by lia.
    replace (j - 1) with (Z.of_nat (Z.to_nat (j - 1))) by lia.
    rewrite !get2_of_nat, Hblock by lia. done. }
  unfold fill_cell. by rewrite Hget.
Qed.

Lemma find_least_seam_reads_block_witness :
  find_least_seam [[1; 2]; [3; 4]] 2 2
  = find_least_seam [[1; 2; 50]; [3; 4]; [60]] 2 2.
Proof.
  apply (find_least_seam_reads_block [[1; 2]; [3; 4]] [[1; 2; 50]; [3; 4]; [60]]).
  intros [|[|i]] [|[|j]] Hi Hj; solve [reflexivity | lia].
Defined.

(** *** A cell of the block that the grid lacks *)

Lemma index_only_bind {A B} (r : result A) (f : A → result B) :
  index_only r → (∀ a, index_only (f a)) → index_only (r ≫= f).
Proof.
  intros Hr Hf. destruct r as [a|e]; cbn; [apply Hf|].
  intros e' [= <-]. by apply Hr.
Qed.

Lemma index_only_Ok {A} (a : A) : index_only (Ok a).
Proof. by intros e. Qed.

Lemma getitem_index_only {A} (l : list A) i : index_only (getitem l i).
Proof.
  unfold getitem, py_index.
  repeat match goal with
         | |- context [if ?b then _ else _] => destruct b
         end; cbn; try destruct (l !! _); by intros e [= <-].
Qed.

Lemma setitem_index_only {A} (l : list A) i v : index_only (setitem l i v).
Proof.
  unfold setitem, py_index.
  repeat match goal with
         | |- context [if ?b then _ else _] => destruct b
         end; cbn; by intros e [= <-].
Qed.

Lemma get2_index_only {A} (t : list (list A)) i j : index_only (get2 t i j).
Proof.
  apply index_only_bind; [apply getitem_index_only|].
  intros row. apply getitem_index_only.
Qed.

Lemma set2_index_only {A} (t : list (list A)) i j v : index_only (set2 t i j v).
Proof.
  apply index_only_bind; [apply getitem_index_only|]. intros row.
  apply index_only_bind; [apply setitem_index_only|]. intros row'.
  apply setitem_index_only.
Qed.

Lemma iter_from_index_only {St} (body : Z → St → result St) cnt x s :
  (∀ y t, index_only (body y t)) → index_only (iter_from cnt x body s).
Proof.
  intros Hbody. revert x s.
  induction cnt as [|cnt IH]; intros x s; [apply index_only_Ok|].
  cbn. apply index_only_bind; [apply Hbody|]. intros t. apply IH.
Qed.

Lemma fill_cell_index_only d n i j dp : index_only (fill_cell d n i j dp).
Proof.
  unfold fill_cell. destruct (i =? 1).
  - apply index_only_bind; [apply get2_index_only|].
    intros x. apply set2_index_only.
  - apply index_only_bind.
    + apply iter_from_index_only. intros k valid.
      destruct ((k + j <? n) && (0 <=? k + j)); [|apply index_only_Ok].
      apply index_only_bind; [apply get2_index_only|].
      intros x. apply index_only_Ok.
    + intros valid. apply index_only_bind; [apply get2_index_only|].
      intros x. apply set2_index_only.
Qed.

(** The loops raise nothing but [IndexError]. *)
Lemma seam_table_index_only d m n : index_only (seam_table d m n).
Proof.
  apply iter_from_index_only. intros i dp.
  apply iter_from_index_only. intros j t. apply fill_cell_index_only.
Qed.

Lemma iter_from_not_ok {St} (body : Z → St → result St) cnt x s y :
  x ≤ y < x + Z.of_nat cnt → (∀ t, ¬ is_ok (body y t)) →
  ¬ is_ok (iter_from cnt x body s).
Proof.
  intros Hy Hbad. revert x s Hy.
  induction cnt as [|cnt IH]; intros x s Hy; [lia|].
  cbn. destruct (decide (y = x)) as [->|Hne].
  - destruct (body x s) as [t|e] eqn:Hb; cbn.
    + exfalso. apply (Hbad s). rewrite Hb. by eexists.
    + by intros [? [=]].
  - destruct (body x s) as [t|e]; cbn.
    + apply IH. lia.
    + by intros [? [=]].
Qed.

Lemma for_range_not_ok {St} (body : Z → St → result St) lo hi s y :
  lo ≤ y < hi → (∀ t, ¬ is_ok (body y t)) → ¬ is_ok (for_range lo hi body s).
Proof. intros Hy. apply iter_from_not_ok. lia. Qed.

Lemma fill_cell_missing d n (i j : nat) dp :
  tget d i j = None →
  ¬ is_ok (fill_cell d n (Z.of_nat i + 1) (Z.of_nat j + 1) dp).
Proof.
  intros Hnone. unfold fill_cell.
  replace (Z.of_nat i + 1 - 1) with (Z.of_nat i) by lia.
  replace (Z.of_nat j + 1 - 1) with (Z.of_nat j) by lia.
  rewrite get2_of_nat, Hnone.
  destruct (Z.of_nat i + 1 =? 1); cbn; [by intros [? [=]]|].
  destruct (for_range _ _ _ _); cbn; by intros [? [=]].
Qed.

(** X5: when the grid lacks a cell of the first [m] rows and [n] columns,
    because it has too few rows or because a row is too short, the function
    raises [IndexError]. *)
Lemma find_least_seam_missing_cell (d : list (list Z)) (m n : Z) (i j : nat) :
  Z.of_nat i < m → Z.of_nat j < n → tget d i j = None →
  find_least_seam d m n = Raise IndexError.
Proof.
  intros Hi Hj Hnone. unfold find_least_seam.
  destruct (seam_table d m n) as [dp|e] eqn:Htable; cbn.
  - exfalso.
    assert (¬ is_ok (seam_table d m n)) as Hbad; [|apply Hbad; by eexists].
    unfold seam_table. apply (for_range_not_ok _ _ _ _ (Z.of_nat i + 1)); [lia|].
    intros dp'. apply (for_range_not_ok _ _ _ _ (Z.of_nat j + 1)); [lia|].
    intros t. by apply fill_cell_missing.
  - by rewrite (seam_table_index_only d m n e Htable).
Qed.

Lemma find_least_seam_missing_cell_witness :
  find_least_seam [[1; 2]; [3]] 2 2 = Raise IndexError.
Proof.
  apply (find_least_seam_missing_cell _ 2 2 1 1); [lia | lia | reflexivity].
Defined.

(** *** The result as a least seam *)

(** [min] of a non-empty list of [int]s is its least element. *)
Lemma py_min_ints (zs : list Z) :
  zs ≠ [] →
  ∃ v, py_min (Int <$> zs) = Ok (Int v) ∧ v ∈ zs ∧ ∀ x, x ∈ zs → v ≤ x.
Proof.
  destruct zs as [|z zs]; [done|]. intros _. cbn.
  assert (∀ a seen, a ∈ seen → (∀ x, x ∈ seen → a ≤ x) →
            ∃ v, fold_left py_min2 (Int <$> zs) (Int a) = Int v ∧
                 v ∈ seen ++ zs ∧ ∀ x, x ∈ seen ++ zs → v ≤ x) as Hfold.
  { induction zs as [|y zs IH]; intros a seen Ha Hmin.
    - exists a. rewrite app_nil_r. done.
    - cbn. unfold py_min2 at 2. cbn.
      destruct (Z.ltb_spec y a) as [Hlt|Hge].
      + destruct (IH y (seen ++ [y])) as (v & Hv & Hin & Hle).
        * apply elem_of_app. right. by left.
        * intros x [Hx|Hx%list_elem_of_singleton]%elem_of_app; [|subst x; lia].
          specialize (Hmin x Hx). lia.
        * exists v. by rewrite <- app_assoc in Hin, Hle.
      + destruct (IH a (seen ++ [y])) as (v & Hv & Hin & Hle).
        * apply elem_of_app. by left.
        * intros x [Hx|Hx%list_elem_of_singleton]%elem_of_app;
            [by apply Hmin|subst x; lia].
        * exists v. by rewrite <- app_assoc in Hin, Hle. }
  destruct (Hfold z [z]) as (v & Hv & Hin & Hle).
  - by left.
  - intros x Hx%list_elem_of_singleton. subst x. lia.
  - exists v. by rewrite Hv.
Qed.

(** The running [min] over columns that hold [int]s is the least of them. *)
Lemma min_over_least (prev : list num) (cols : list nat) (f : nat → Z) :
  cols ≠ [] →
  (∀ c, c ∈ cols → prev !! c = Some (Int (f c))) →
  ∃ c, c ∈ cols ∧ min_over prev cols = Int (f c) ∧
       ∀ c', c' ∈ cols → f c ≤ f c'.
Proof.
  destruct cols as [|c0 cols]; [done|]. intros _ Hprev.
  unfold min_over. cbn [foldl]. rewrite (Hprev c0) by (by left).
  cbn [default]. rewrite py_min2_Inf.
  assert (∀ a seen, a ∈ seen → (∀ c, c ∈ seen → f a ≤ f c) →
            (∀ c, c ∈ cols → prev !! c = Some (Int (f c))) →
            ∃ c, c ∈ seen ++ cols ∧
              foldl (λ acc c, py_min2 acc (default Inf (prev !! c)))
                (Int (f a)) cols = Int (f c) ∧
              ∀ c', c' ∈ seen ++ cols → f c ≤ f c') as Hfold.
  { clear Hprev. induction cols as [|c1 cols IH]; intros a seen Ha Hmin Hcols.
    - exists a. rewrite app_nil_r. done.
    - cbn [foldl]. rewrite (Hcols c1) by (by left). cbn [default].
      unfold py_min2. cbn.
      destruct (Z.ltb_spec (f c1) (f a)) as [Hlt|Hge].
      + destruct (IH c1 (seen ++ [c1])) as (c & Hin & Hc & Hle).
        * apply elem_of_app. right. by left.
        * intros x [Hx|Hx%list_elem_of_singleton]%elem_of_app; [|subst x; lia].
          specialize (Hmin x Hx). lia.
        * intros x Hx. apply Hcols. by right.
        * exists c. by rewrite <- app_assoc in Hin, Hle.
      + destruct (IH a (seen ++ [c1])) as (c & Hin & Hc & Hle).
        * apply elem_of_app. by left.
        * intros x [Hx|Hx%list_elem_of_singleton]%elem_of_app;
            [by apply Hmin|subst x; lia].
        * intros x Hx. apply Hcols. by right.
        * exists c. by rewrite <- app_assoc in Hin, Hle. }
  apply (Hfold c0 [c0]).
  - by left.
  - intros x Hx%list_elem_of_singleton. subst x. lia.
  - intros c Hc. apply Hprev. by right.
Qed.

(** A column that is read lies in the row above. *)
Lemma reads_lt (n c j : nat) : (1 ≤ n)%nat → reads n c j → (c < n)%nat.
Proof.
  intros Hn (z & -> & Hz)%list_elem_of_fmap.
  apply list_elem_of_filter in Hz as [Hz _].
  unfold column_of. destruct (Z.ltb_spec z 0); lia.
Qed.

(** Every column reads at least one column of the row above. *)
Lemma reads_some (n j : nat) :
  (j < n)%nat →
  column_of (Z.of_nat n) <$> used_window (Z.of_nat n) (Z.of_nat j) ≠ [].
Proof.
  intros Hj. rewrite used_window_cases, decide_True by lia. done.
Qed.

Section least_seam.
Variables (d : list (list Z)) (m n : nat) (dp : list (list num)).
Hypothesis n_pos : (1 ≤ n)%nat.
Hypothesis dp_filled : seam_filled d m n m 0 dp.

(** Every cell of the table holds the least cost of a seam down to it. *)
Lemma seam_table_least (r j : nat) :
  (r < m)%nat → (j < n)%nat →
  ∃ v, tget dp r j = Some (Int v) ∧ seam_to d n r j v ∧
       ∀ v', seam_to d n r j v' → v ≤ v'.
Proof.
  destruct dp_filled as (Hlen & Hlens & Hcells).
  revert j. induction r as [|r IH]; intros j Hr Hj.
  - destruct (Hcells O j) as (x & Hx & Hcell); [lia..|].
    exists x. split; [done|]. split; [by constructor|].
    intros v' Hseam. inversion Hseam; subst. assert (x = v') by congruence. lia.
  - destruct (Hcells (S r) j) as (x & Hx & prev & Hprev & Hcell); [lia..|].
    set (f c := match prev !! c with Some (Int z) => z | _ => 0 end).
    assert (∀ c, (c < n)%nat →
              prev !! c = Some (Int (f c)) ∧ seam_to d n r c (f c) ∧
              ∀ v', seam_to d n r c v' → f c ≤ v') as Hrow.
    { intros c Hc. destruct (IH c ltac:(lia) Hc) as (v & Hv & Hseam & Hleast).
      unfold tget in Hv. rewrite Hprev in Hv. cbn in Hv.
      unfold f. rewrite Hv. done. }
    destruct (min_over_least prev
                (column_of (Z.of_nat n)
                   <$> used_window (Z.of_nat n) (Z.of_nat j)) f)
      as (c & Hc & Hmin & Hle).
    { by apply reads_some. }
    { intros c Hc. apply Hrow. by eapply reads_lt. }
    rewrite Hmin in Hcell. cbn in Hcell.
    exists (x + f c). split; [done|]. split.
    + econstructor; [|exact Hc|done..]. apply Hrow. by eapply reads_lt.
    + intros v' Hseam. inversion Hseam as [|r' c' j' v0 x' Hup Hreads Hj' Hx']; subst.
      assert (x' = x) as -> by congruence.
      pose proof (reads_lt n c' j n_pos Hreads) as Hc'.
      destruct (Hrow c' Hc') as (_ & _ & Hleast).
      specialize (Hleast v0 Hup). specialize (Hle c' Hreads). lia.
Qed.

End least_seam.

Lemma seam_to_column d n r j v : seam_to d n r j v → (j < n)%nat.
Proof. by destruct 1. Qed.

(** X1: on a grid of [m ≥ 1] rows and [n ≥ 1] columns the result is the
    least cost of a seam from row 0 to the last row, for seams that step
    from a column to one that reads it (see [reads_iff]). *)
Lemma find_least_seam_least (d : list (list Z)) (m n : nat) :
  (1 ≤ m)%nat → (1 ≤ n)%nat →
  length d = m → Forall (λ row, length row = n) d →
  ∃ v, find_least_seam d (Z.of_nat m) (Z.of_nat n) = Ok (Int v) ∧
       (∃ j, seam_to d n (m - 1) j v) ∧
       ∀ j v', seam_to d n (m - 1) j v' → v ≤ v'.
Proof.
  intros Hm Hn Hrows Hcols.
  destruct (seam_table_filled d m n Hrows Hcols) as (dp & Hdp & Hfilled).
  pose proof (seam_table_least d m n dp Hn Hfilled (m - 1)) as Hleast.
  destruct Hfilled as (Hlen & Hlens & _).
  destruct (lookup_lt_is_Some_2 dp (m - 1)) as [row Hrow]; [lia|].
  pose proof (proj1 (Forall_lookup _ _) Hlens _ _ Hrow) as Hrow_len.
  set (zs := (λ p, match p with Int z => z | Inf => 0 end) <$> row).
  assert (∀ j z, zs !! j = Some z →
            (j < n)%nat ∧ row !! j = Some (Int z) ∧ seam_to d n (m - 1) j z ∧
            ∀ v', seam_to d n (m - 1) j v' → z ≤ v') as Hzs.
  { intros j z Hz. unfold zs in Hz. rewrite list_lookup_fmap in Hz.
    destruct (row !! j) as [p|] eqn:Hp; [|done].
    assert (j < n)%nat as Hj by (rewrite <- Hrow_len; by eapply lookup_lt_Some).
    destruct (Hleast j) as (v & Hv & Hseam & Hle); [lia|done|].
    unfold tget in Hv. rewrite Hrow in Hv. cbn in Hv.
    assert (p = Int v) as -> by congruence.
    cbn in Hz. injection Hz as <-. done. }
  assert (row = Int <$> zs) as Hrow_eq.
  { apply list_eq. intros j. rewrite list_lookup_fmap.
    destruct (zs !! j) as [z|] eqn:Hz; cbn.
    - by destruct (Hzs j z Hz) as (_ & -> & _).
    - apply lookup_ge_None in Hz. apply lookup_ge_None.
      unfold zs in Hz. by rewrite length_fmap in Hz. }
  destruct (py_min_ints zs) as (v & Hv & Hin & Hle).
  { intros Hnil. unfold zs in Hnil. apply fmap_nil_inv in Hnil.
    rewrite Hnil in Hrow_len. cbn in Hrow_len. lia. }
  exists v. split; [|split].
  - unfold find_least_seam. rewrite Hdp. cbn.
    replace (Z.of_nat m - 1) with (Z.of_nat (m - 1)) by lia.
    rewrite (getitem_nat _ _ _ Hrow). cbn. by rewrite Hrow_eq.
  - apply list_elem_of_lookup in Hin as [j Hj]. exists j.
    by destruct (Hzs j v Hj) as (_ & _ & ? & _).
  - intros j v' Hseam.
    pose proof (seam_to_column _ _ _ _ _ Hseam) as Hj.
    destruct (lookup_lt_is_Some_2 zs j) as [z Hz].
    { unfold zs. rewrite length_fmap, Hrow_len. done. }
    destruct (Hzs j z Hz) as (_ & _ & _ & Hleast').
    specialize (Hleast' v' Hseam).
    specialize (Hle z (list_elem_of_lookup_2 _ _ _ Hz)). lia.
Qed.

Lemma find_least_seam_least_witness :
  ∃ v, find_least_seam [[5; 1]; [9; 0]] (Z.of_nat 2) (Z.of_nat 2) = Ok (Int v) ∧
       (∃ j, seam_to [[5; 1]; [9; 0]] 2 (2 - 1) j v) ∧
       ∀ j v', seam_to [[5; 1]; [9; 0]] 2 (2 - 1) j v' → v ≤ v'.
Proof.
  apply find_least_seam_least;
    [simpl; lia | simpl; lia | reflexivity | repeat constructor].
Defined.

(** Which column reads which: column 0 reads the last column, every column
    but the first reads its left neighbour, and a column reads itself and its
    right neighbour only where these are not the last column. *)
Lemma reads_iff (n c j : nat) :
  (j < n)%nat →
  reads n c j ↔
    (j = 0 ∧ c = n - 1)%nat ∨ (1 ≤ j ∧ c = j - 1)%nat ∨
    (c = j ∧ j + 2 ≤ n)%nat ∨ (c = j + 1 ∧ j + 3 ≤ n)%nat.
Proof.
  intros Hj. unfold reads. rewrite list_elem_of_fmap. split.
  - intros (z & -> & Hz). apply list_elem_of_filter in Hz as [Hrange Hz].
    unfold column_of. destruct (Z.ltb_spec z 0);
      repeat (apply elem_of_cons in Hz as [Hz|Hz]; [lia|]);
      by apply not_elem_of_nil in Hz.
  - intros Hcases.
    assert (∃ z, c = column_of (Z.of_nat n) z ∧ -1 ≤ z ≤ Z.of_nat n - 2 ∧
                 (z = Z.of_nat j - 1 ∨ z = Z.of_nat j ∨ z = Z.of_nat j + 1))
      as (z & Hc & Hrange & Hz).
    { unfold column_of.
      destruct Hcases as [[H1 H2]|[[H1 H2]|[[H1 H2]|[H1 H2]]]]; subst.
      - exists (-1). cbn. lia.
      - exists (Z.of_nat j - 1).
        destruct (Z.ltb_spec (Z.of_nat j - 1) 0); lia.
      - exists (Z.of_nat j). destruct (Z.ltb_spec (Z.of_nat j) 0); lia.
      - exists (Z.of_nat j + 1).
        destruct (Z.ltb_spec (Z.of_nat j + 1) 0); lia. }
    exists z. split; [done|]. apply list_elem_of_filter. split; [done|].
    destruct Hz as [-> | [-> | ->]]; repeat constructor.
Qed.

Lemma seam_to_bounds d n r j v lo hi :
  Forall (Forall (λ x, lo ≤ x ≤ hi)) d →
  seam_to d n r j v →
  (Z.of_nat r + 1) * lo ≤ v ≤ (Z.of_nat r + 1) * hi.
Proof.
  intros Hd.
  assert (∀ a b x, tget d a b = Some x → lo ≤ x ≤ hi) as Hcell.
  { intros a b x. unfold tget. destruct (d !! a) as [row|] eqn:Hrow; [|done].
    cbn. intros Hx.
    pose proof (proj1 (Forall_lookup _ _) Hd _ _ Hrow) as Hrow_ok.
    apply (proj1 (Forall_lookup _ _) Hrow_ok _ _ Hx). }
  induction 1 as [j x Hj Hx|r c j v x Hup IH Hreads Hj Hx].
  - specialize (Hcell _ _ _ Hx). lia.
  - specialize (Hcell _ _ _ Hx). lia.
Qed.

(** X3: on a grid of [m ≥ 1] rows and [n ≥ 1] columns with entries between
    [lo] and [hi], the result lies between [m * lo] and [m * hi]. *)
Lemma find_least_seam_bounds (d : list (list Z)) (m n : nat) (lo hi : Z) :
  (1 ≤ m)%nat → (1 ≤ n)%nat →
  length d = m → Forall (λ row, length row = n) d →
  Forall (Forall (λ x, lo ≤ x ≤ hi)) d →
  ∃ v, find_least_seam d (Z.of_nat m) (Z.of_nat n) = Ok (Int v) ∧
       Z.of_nat m * lo ≤ v ≤ Z.of_nat m * hi.
Proof.
  intros Hm Hn Hrows Hcols Hd.
  destruct (find_least_seam_least d m n Hm Hn Hrows Hcols)
    as (v & Hv & [j Hseam] & _).
  exists v. split; [done|].
  pose proof (seam_to_bounds _ _ _ _ _ lo hi Hd Hseam) as Hb.
  by replace (Z.of_nat (m - 1) + 1) with (Z.of_nat m) in Hb by lia.
Qed.

Lemma find_least_seam_bounds_witness :
  ∃ v, find_least_seam [[1; 2; 3]; [4; 5; 6]] (Z.of_nat 2) (Z.of_nat 3)
       = Ok (Int v) ∧
       Z.of_nat 2 * 0 ≤ v ≤ Z.of_nat 2 * 100.
Proof.
  apply find_least_seam_bounds;
    [simpl; lia | simpl; lia | reflexivity | repeat constructor
    | repeat constructor; lia].
Defined.

(** X2: with a single row asked for, the result is the least of the first
    [n] entries of the first row, whatever else the grid holds. *)
Lemma find_least_seam_single_row (d : list (list Z)) (row : list Z) (n : nat) :
  d !! 0%nat = Some row → (1 ≤ n ≤ length row)%nat →
  ∃ v, find_least_seam d 1 (Z.of_nat n) = Ok (Int v) ∧
       v ∈ take n row ∧ ∀ x, x ∈ take n row → v ≤ x.
Proof.
  intros Hrow Hn.
  rewrite (find_least_seam_reads_block d [take n row]).
  - destruct (find_least_seam_least [take n row] 1 n) as (v & Hv & [j Hseam] & Hle).
    + done.
    + lia.
    + done.
    + repeat constructor. rewrite length_take. lia.
    + exists v. split; [done|]. split.
      * inversion Hseam as [j' x' Hj Hx|]; subst.
        unfold tget in Hx. cbn in Hx. by eapply list_elem_of_lookup_2.
      * intros x [j' Hx]%list_elem_of_lookup. apply (Hle j').
        constructor; [|done].
        apply lookup_lt_Some in Hx. rewrite length_take in Hx. lia.
  - intros i j Hi Hj. assert (i = 0)%nat as -> by lia.
    unfold tget. rewrite Hrow. cbn. rewrite lookup_take_lt by lia. done.
Qed.

Lemma find_least_seam_single_row_witness :
  ∃ v, find_least_seam [[4; 2; 7; 1]; [0]] 1 (Z.of_nat 3) = Ok (Int v) ∧
       v ∈ take 3 [4; 2; 7; 1] ∧ ∀ x, x ∈ take 3 [4; 2; 7; 1] → v ≤ x.
Proof.
  apply (find_least_seam_single_row _ [4; 2; 7; 1] 3); [reflexivity | simpl; lia].
Defined.

End SeamExtra.

(** ** Further properties of [break_string_cost] *)

Module CutsExtra.
Import Cuts Oracle CutsSpec CutsRec SeamSpec OracleFacts CutsTable CutsCorrect
  CutsClaims SeamMono.

(** X14: without cuts the cost is 0, for every length, positive or not. *)
Lemma break_string_cost_no_cuts (string_length : Z) :
  break_string_cost string_length [] = Ok (Int 0).
Proof. reflexivity. Qed.

(** X13: with two cuts [a] and [b], in whatever order and range, the cost is
    the length plus the smaller of [string_length - a] and [b]. *)
Lemma break_string_cost_two_cuts (string_length a b : Z) :
  break_string_cost string_length [a; b]
  = Ok (Int (string_length + Z.min (string_length - a) b)).
Proof.
  assert (break_string_cost string_length [a; b]
          = Ok (num_sub
                  (num_add
                     (if b - 0 + 0 <? 0 + (string_length - a)
                      then (Int (b - 0 + 0), 1)
                      else (Int (0 + (string_length - a)), 0)).1
                     (Int string_length)) 0)) as -> by reflexivity.
  destruct (Z.ltb_spec (b - 0 + 0) (0 + (string_length - a)));
    cbn; do 2 f_equal; lia.
Qed.

(** *** Bounds on the cost *)

Lemma cut_at_within bound c ps :
  0 ≤ bound → pieces_within bound ps →
  0 ≤ (cut_at c ps).1 ≤ bound ∧ pieces_within bound (cut_at c ps).2.
Proof.
  intros Hb. induction 1 as [|p ps Hp Hps IH]; cbn.
  - split; [lia|constructor].
  - destruct (holds p c) eqn:Hc; cbn.
    + unfold holds in Hc. apply andb_true_iff in Hc as [?%Z.leb_le ?%Z.ltb_lt].
      split; [done|]. repeat constructor; cbn; [lia..|done].
    + destruct IH as [? ?]. split; [done|]. by constructor.
Qed.

Lemma order_cost_within bound order ps :
  0 ≤ bound → pieces_within bound ps →
  0 ≤ order_cost ps order ≤ Z.of_nat (length order) * bound.
Proof.
  intros Hb. revert ps. induction order as [|c rest IH]; intros ps Hps.
  - cbn. lia.
  - cbn [order_cost length].
    destruct (cut_at_within bound c ps Hb Hps) as [Hcost Hps'].
    specialize (IH _ Hps'). lia.
Qed.

(** X11: for valid cuts the cost is at least 0 and at most the number of
    cuts times the length, and with at least one cut it is at least the
    length. *)
Lemma break_string_cost_bounds (string_length : Z) (cuts : list Z) :
  strictly_increasing cuts = true → in_range string_length cuts = true →
  ∃ v, break_string_cost string_length cuts = Ok (Int v) ∧
       0 ≤ v ≤ Z.of_nat (length cuts) * string_length ∧
       (cuts ≠ [] → string_length ≤ v).
Proof.
  intros Hsorted%strictly_increasing_sorted Hrange%in_range_Forall.
  destruct (break_string_cost_least string_length cuts Hsorted Hrange)
    as (v & Hv & (order & Hperm & Hcost) & Hle).
  exists v. split; [done|].
  destruct cuts as [|c0 cuts].
  { apply Permutation_nil_r in Hperm as ->. cbn in Hcost. subst v.
    split; [cbn; lia|done]. }
  assert (0 ≤ c0 < string_length) as Hc0 by (by apply Forall_cons in Hrange as [? _]).
  assert (pieces_within string_length [(0, string_length)]) as Hwhole
    by (repeat constructor; cbn; lia).
  split.
  - split.
    + rewrite <- Hcost. apply (order_cost_within string_length); [lia|done].
    + etrans; [apply (Hle (c0 :: cuts)); done|].
      apply (order_cost_within string_length); [lia|done].
  - intros _. destruct order as [|x rest].
    { by apply Permutation_nil_cons in Hperm. }
    assert (0 ≤ x < string_length) as Hx.
    { apply (proj1 (Forall_forall _ _) Hrange). rewrite <- Hperm. by left. }
    rewrite <- Hcost. cbn [order_cost cut_at]. unfold holds. cbn [fst snd].
    replace (0 <=? x) with true by (symmetry; apply Z.leb_le; lia).
    replace (x <? string_length) with true by (symmetry; apply Z.ltb_lt; lia).
    cbn [andb fst snd].
    assert (pieces_within string_length [(0, x); (x, string_length)]) as Hparts
      by (repeat constructor; cbn; lia).
    pose proof (order_cost_within string_length rest _ ltac:(lia) Hparts). lia.
Qed.

Lemma break_string_cost_bounds_witness :
  ∃ v, break_string_cost 20 [2; 8; 10] = Ok (Int v) ∧
       0 ≤ v ≤ Z.of_nat (length [2; 8; 10]) * 20 ∧
       ([2; 8; 10] ≠ [] → 20 ≤ v).
Proof.
  apply break_string_cost_bounds; reflexivity.
Defined.

(** *** A longer string *)

Lemma num_sub_mono a a' z : num_le a a' → num_le (num_sub a z) (num_sub a' z).
Proof. destruct a, a'; cbn; lia. Qed.

Lemma try_split_rel dp dp' i j k mc mc' :
  Forall2 (Forall2 cell_le) dp dp' → cell_le mc mc' →
  res_rel cell_le (try_split dp i j k mc) (try_split dp' i j k mc').
Proof.
  intros Hdp Hmc. unfold try_split.
  eapply bind_rel; [by apply get2_rel|]. intros a a' Ha.
  eapply bind_rel; [by apply get2_rel|]. intros b b' Hb.
  cbn. unfold cell_le in *.
  pose proof (py_min2_mono _ _ _ _ Hmc (num_add_mono _ _ _ _ Ha Hb)) as Hmin.
  unfold py_min2 in Hmin.
  by destruct (num_ltb (num_add a.1 b.1) mc.1),
    (num_ltb (num_add a'.1 b'.1) mc'.1).
Qed.

Lemma fill_cut_cell_rel L L' cuts w i dp dp' :
  L ≤ L' → Forall2 (Forall2 cell_le) dp dp' →
  res_rel (Forall2 (Forall2 cell_le))
    (fill_cell L cuts w i dp) (fill_cell L' cuts w i dp').
Proof.
  intros HL Hdp. unfold fill_cell.
  eapply bind_rel.
  { apply (for_range_rel cell_le); [|unfold cell_le; done].
    intros k mc mc' Hmc. by apply try_split_rel. }
  intros mc mc' Hmc.
  eapply (bind_rel eq).
  { destruct (i =? 0); [done|]. destruct (getitem cuts (i - 1)); done. }
  intros st ? <-.
  eapply (bind_rel Z.le).
  { destruct (Z.of_nat (length cuts) <=? i + w); [done|].
    destruct (getitem cuts (i + w)); cbn; [lia|done]. }
  intros e e' He. apply set2_rel; [done|].
  unfold cell_le. cbn. apply num_sub_mono, num_add_mono; done.
Qed.

Lemma break_table_rel L L' cuts :
  L ≤ L' →
  res_rel (Forall2 (Forall2 cell_le)) (break_table L cuts) (break_table L' cuts).
Proof.
  intros HL. unfold break_table.
  apply (for_range_rel (Forall2 (Forall2 cell_le))).
  - intros w dp dp' Hdp.
    apply (for_range_rel (Forall2 (Forall2 cell_le))); [|done].
    intros i t t' Ht. by apply fill_cut_cell_rel.
  - apply Forall2_replicate, Forall2_replicate. unfold cell_le. cbn. lia.
Qed.

(** X12: for the same cuts, valid or not, a longer string never costs
    less. *)
Lemma break_string_cost_longer (string_length string_length' : Z)
    (cuts : list Z) :
  string_length ≤ string_length' →
  ∃ v v', break_string_cost string_length cuts = Ok (Int v) ∧
          break_string_cost string_length' cuts = Ok (Int v') ∧ v ≤ v'.
Proof.
  intros HL.
  destruct (break_string_cost_total string_length cuts) as [v Hv].
  destruct (break_string_cost_total string_length' cuts) as [v' Hv'].
  exists v, v'. split; [done|]. split; [done|].
  assert (res_rel num_le (break_string_cost string_length cuts)
            (break_string_cost string_length' cuts)) as Hrel.
  { unfold break_string_cost.
    eapply bind_rel; [by apply break_table_rel|]. intros dp dp' Hdp.
    eapply bind_rel; [by apply get2_rel|]. intros c c' Hc. done. }
  by rewrite Hv, Hv' in Hrel.
Qed.

Lemma break_string_cost_longer_witness :
  ∃ v v', break_string_cost 20 [2; 8; 10] = Ok (Int v) ∧
          break_string_cost 25 [2; 8; 10] = Ok (Int v') ∧ v ≤ v'.
Proof. apply break_string_cost_longer. lia. Defined.

(** *** The recurrence and the recorded splits *)

Lemma cost_of_tset_ne (dp : list (list cell)) i j v a b :
  (i, j) ≠ (a, b) → cost_of (tset dp i j v) a b = cost_of dp a b.
Proof. intros Hne. unfold cost_of. by rewrite tget_tset_ne. Qed.

(** The loop over [k] keeps the first split of least cost. *)
Lemma scan_first (dp : list (list cell)) (i j : nat) :
  (i < j)%nat →
  (∀ k, (i ≤ k < j)%nat →
        (∃ v s, tget dp i k = Some (Int v, s)) ∧
        (∃ v s, tget dp (k + 1) j = Some (Int v, s))) →
  ∃ ks : nat, (i ≤ ks < j)%nat ∧
    for_range (Z.of_nat i) (Z.of_nat j)
      (try_split dp (Z.of_nat i) (Z.of_nat j)) (Inf, -1)
    = Ok (Int (split_cost dp i j ks), Z.of_nat ks) ∧
    (∀ k, (i ≤ k < j)%nat → split_cost dp i j ks ≤ split_cost dp i j k) ∧
    (∀ k, (i ≤ k < ks)%nat → split_cost dp i j ks < split_cost dp i j k).
Proof.
  intros Hij Hcells.
  set (I (y : Z) (mc : cell) :=
         (y = Z.of_nat i ∧ mc = (Inf, -1)) ∨
         (∃ ks : nat, Z.of_nat i ≤ Z.of_nat ks < y ∧
            mc = (Int (split_cost dp i j ks), Z.of_nat ks) ∧
            (∀ k : nat, Z.of_nat i ≤ Z.of_nat k < y →
               split_cost dp i j ks ≤ split_cost dp i j k) ∧
            (∀ k : nat, (i ≤ k < ks)%nat →
               split_cost dp i j ks < split_cost dp i j k))).
  destruct (for_range_inv I (try_split dp (Z.of_nat i) (Z.of_nat j))
              (Z.of_nat i) (Z.of_nat j) (Inf, -1)) as (mc & Hloop & HI).
  - lia.
  - by left.
  - intros y mc Hy HIy.
    assert (∃ k : nat, y = Z.of_nat k) as [k ->] by (exists (Z.to_nat y); lia).
    destruct (Hcells k) as [(va & sa & Ha) (vb & sb & Hb)]; [lia|].
    unfold try_split.
    rewrite (get2_nat _ _ _ _ Ha). cbn.
    replace (Z.of_nat k + 1) with (Z.of_nat (k + 1)) by lia.
    rewrite (get2_nat _ _ _ _ Hb). cbn.
    assert (va + vb = split_cost dp i j k) as Hsum.
    { unfold split_cost.
      by rewrite (cost_of_Some _ _ _ _ _ Ha), (cost_of_Some _ _ _ _ _ Hb). }
    rewrite Hsum. eexists. split; [done|].
    destruct HIy as [[Hki ->]|(ks & Hks & -> & Hmin & Hfirst)]; cbn.
    + right. exists k. split; [lia|]. split; [done|]. split.
      * intros k' Hk'. assert (k' = k) as -> by lia. lia.
      * intros k' Hk'. lia.
    + destruct (Z.ltb_spec (split_cost dp i j k) (split_cost dp i j ks))
        as [Hlt|Hge].
      * right. exists k. split; [lia|]. split; [done|]. split.
        -- intros k' Hk'. destruct (decide (k' = k)) as [->|Hne]; [lia|].
           assert (split_cost dp i j ks ≤ split_cost dp i j k')
             by (apply Hmin; lia). lia.
        -- intros k' Hk'.
           assert (split_cost dp i j ks ≤ split_cost dp i j k')
             by (apply Hmin; lia). lia.
      * right. exists ks. split; [lia|]. split; [done|]. split; [|done].
        intros k' Hk'. destruct (decide (k' = k)) as [->|Hne]; [lia|].
        apply Hmin; lia.
  - destruct HI as [[? _]|(ks & Hks & -> & Hmin & Hfirst)]; [lia|].
    exists ks. split; [lia|]. split; [done|]. split; [|done].
    intros k Hk. apply Hmin. lia.
Qed.

Section recurrence.
Variables (string_length : Z) (cuts : list Z).

Lemma fill_cut_cell_rec (w i : nat) dp :
  (0 < w)%nat → (i + w ≤ length cuts)%nat → rec_filled string_length cuts w i dp →
  ∃ dp', fill_cell string_length cuts (Z.of_nat w) (Z.of_nat i) dp = Ok dp' ∧
         rec_filled string_length cuts w (i + 1) dp'.
Proof.
  intros Hw Hiw [Hdp Hrec].
  destruct (fill_cut_cell_filled string_length cuts (λ _ _ _, True)
              ltac:(done) ltac:(done) w i dp Hw Hiw Hdp) as (dp' & Hfill & Hdp').
  exists dp'. split; [done|]. split; [done|].
  revert Hfill. unfold fill_cell.
  replace (Z.of_nat i + Z.of_nat w) with (Z.of_nat (i + w)) by lia.
  set (j := (i + w)%nat).
  destruct (scan_first dp i j) as (ks & Hks & -> & Hmin & Hfirst); [lia| |].
  { intros k Hk.
    destruct (filled_cell cuts (λ _ _ _, True) ltac:(done) w i dp i k Hdp)
      as (va & sa & Ha & _); [lia..|].
    destruct (filled_cell cuts (λ _ _ _, True) ltac:(done) w i dp (k + 1) j Hdp)
      as (vb & sb & Hb & _); [lia..|].
    eauto 10. }
  cbn.
  assert ((if Z.of_nat i =? 0 then Ok 0 else getitem cuts (Z.of_nat i - 1))
          = Ok (seg_start cuts i)) as ->.
  { destruct i as [|i']; [done|].
    replace (Z.of_nat (S i') =? 0) with false by (symmetry; apply Z.eqb_neq; lia).
    replace (Z.of_nat (S i') - 1) with (Z.of_nat i') by lia.
    destruct (lookup_lt_is_Some_2 cuts i') as [c Hc]; [lia|].
    cbn. rewrite Hc. by apply getitem_nat. }
  cbn.
  assert ((if Z.of_nat (length cuts) <=? Z.of_nat j then Ok string_length
           else getitem cuts (Z.of_nat j))
          = Ok (seg_end string_length cuts j)) as ->.
  { unfold seg_end. destruct (decide (length cuts ≤ j)%nat) as [Hle|Hgt].
    - by replace (Z.of_nat (length cuts) <=? Z.of_nat j) with true
        by (symmetry; apply Z.leb_le; lia).
    - replace (Z.of_nat (length cuts) <=? Z.of_nat j) with false
        by (symmetry; apply Z.leb_gt; lia).
      destruct (lookup_lt_is_Some_2 cuts j) as [c Hc]; [lia|].
      rewrite Hc. by apply getitem_nat. }
  cbn.
  destruct Hdp as (_ & _ & Hshape).
  destruct (Hshape i j) as [old Hold]; [lia..|].
  rewrite (set2_nat _ _ _ _ _ Hold). intros [= <-].
  assert (∀ a b k, (a ≤ k < b)%nat → (b - a ≤ w)%nat →
            split_cost (tset dp i j
                          (Int (split_cost dp i j ks
                                + seg_end string_length cuts j
                                - seg_start cuts i), Z.of_nat ks)) a b k
            = split_cost dp a b k) as Hsame.
  { intros a b k Hk Hab. unfold split_cost.
    rewrite !cost_of_tset_ne by (intros [= ? ?]; lia). done. }
  intros a b Hab Hwidth.
  destruct (decide ((i, j) = (a, b))) as [[= <- <-]|Hne].
  - exists ks. split; [lia|]. split; [|split].
    + rewrite (tget_tset_eq _ _ _ _ _ Hold), Hsame by lia. done.
    + intros k Hk. rewrite !Hsame by lia. by apply Hmin.
    + intros k Hk. rewrite !Hsame by lia. by apply Hfirst.
  - destruct (Hrec a b Hab) as (s & Hs & Hcell & Hmin' & Hfirst').
    { destruct Hwidth as [?|[? ?]]; [by left|right]. split; [done|].
      destruct (decide (a = i)) as [->|?]; [|lia].
      exfalso. apply Hne. f_equal. lia. }
    assert (b - a ≤ w)%nat as Hle by lia.
    exists s. split; [done|]. split; [|split].
    + rewrite tget_tset_ne, Hsame by (done || lia). done.
    + intros k Hk. rewrite !Hsame by lia. by apply Hmin'.
    + intros k Hk. rewrite !Hsame by lia. by apply Hfirst'.
Qed.

(** X9: for every length and every list of cuts, each cell above the
    diagonal obeys the recurrence: it records the first split of least cost,
    and its cost is the cost of that split plus the length the cell spans. *)
Lemma break_table_recurrence :
  ∃ dp, break_table string_length cuts = Ok dp ∧
    ∀ a b, (a < b ≤ length cuts)%nat → split_ok string_length cuts dp a b.
Proof.
  unfold break_table.
  set (n := length cuts). set (dp0 := replicate _ _).
  destruct (for_range_inv (λ y dp, rec_filled string_length cuts (Z.to_nat y) 0 dp)
              (λ num_break_points dp,
                 for_range 0 (Z.of_nat n + 1 - num_break_points)
                   (fill_cell string_length cuts num_break_points) dp)
              1 (Z.of_nat n + 1) dp0) as (dp & Hloop & Hdp).
  - lia.
  - assert (∀ a b, (a ≤ n)%nat → (b ≤ n)%nat → tget dp0 a b = Some (Int 0, -1))
      as Hinit by (intros a b ? ?; apply tget_replicate; lia).
    split; [split; [|split]|].
    + intros a b ? ?. apply Hinit; lia.
    + intros a b ? [?|[? ?]]; lia.
    + intros a b ? ?. rewrite Hinit by lia. done.
    + intros a b ? [?|[? ?]]; lia.
  - intros y dp Hy Hdp.
    assert (∃ w : nat, y = Z.of_nat w) as [w ->] by (exists (Z.to_nat y); lia).
    rewrite Nat2Z.id in Hdp.
    destruct (for_range_inv (λ x dp, rec_filled string_length cuts w (Z.to_nat x) dp)
                (fill_cell string_length cuts (Z.of_nat w))
                0 (Z.of_nat n + 1 - Z.of_nat w) dp) as (dp' & Hloop & Hdp').
    + lia.
    + done.
    + intros x t Hx Ht.
      assert (∃ i : nat, x = Z.of_nat i) as [i ->] by (exists (Z.to_nat x); lia).
      rewrite Nat2Z.id in Ht.
      destruct (fill_cut_cell_rec w i t) as (t' & Ht' & Hfilled); [lia| |done|].
      { unfold n in Hx. lia. }
      exists t'. split; [done|].
      by replace (Z.to_nat (Z.of_nat i + 1)) with (i + 1)%nat by lia.
    + exists dp'. split; [done|].
      replace (Z.to_nat (Z.of_nat w + 1)) with (w + 1)%nat by lia.
      destruct Hdp' as [(Hlow & Hup & Hshape) Hrec].
      assert (∀ a b, (a < b ≤ n)%nat →
                (b - a < w + 1 ∨ b - a = w + 1 ∧ a < 0)%nat →
                (b - a < w ∨ b - a = w ∧ a < Z.to_nat (Z.of_nat n + 1 - Z.of_nat w))%nat)
        as Hcase.
      { intros a b Hab [?|[? ?]]; [|lia].
        destruct (decide (b - a = w)%nat); [right|left]; lia. }
      split; [split; [done|split; [|done]]|].
      * intros a b Hab Hwidth. apply Hup; [done|]. by apply Hcase.
      * intros a b Hab Hwidth. apply Hrec; [done|]. by apply Hcase.
  - exists dp. split; [done|].
    replace (Z.to_nat (Z.of_nat n + 1)) with (n + 1)%nat in Hdp by lia.
    destruct Hdp as [_ Hrec]. intros a b Hab. apply Hrec; [done|]. left. lia.
Qed.

End recurrence.

Lemma break_table_recurrence_witness :
  ∃ dp, break_table 20 [2; 8; 10] = Ok dp ∧ split_ok 20 [2; 8; 10] dp 0 3.
Proof.
  destruct (break_table_recurrence 20 [2; 8; 10]) as (dp & Hdp & Hcells).
  exists dp. split; [exact Hdp|]. apply Hcells. simpl. lia.
Defined.

(** *** Optimal cells and the first cut *)

(** X8: for valid cuts, however many, every cell on or above the diagonal
    holds the least cost, over all orders, of making the cuts that lie
    strictly inside the piece it stands for. *)
Lemma break_table_optimal (string_length : Z) (cuts : list Z) :
  strictly_increasing cuts = true → in_range string_length cuts = true →
  ∃ dp, break_table string_length cuts = Ok dp ∧
    ∀ a b, (a ≤ b ≤ length cuts)%nat →
      ∃ v s, tget dp a b = Some (Int v, s) ∧ optimal string_length cuts a b v.
Proof.
  intros Hsorted%strictly_increasing_sorted Hrange%in_range_Forall.
  destruct (break_table_filled string_length cuts (optimal string_length cuts)
              (optimal_diag string_length cuts)
              (optimal_step string_length cuts Hsorted Hrange))
    as (dp & Hdp & _ & Hcells).
  by exists dp.
Qed.

Lemma break_table_optimal_witness :
  ∃ dp, break_table 20 [2; 8; 10] = Ok dp ∧
    ∃ v s, tget dp 1 3 = Some (Int v, s) ∧ optimal 20 [2; 8; 10] 1 3 v.
Proof.
  destruct (break_table_optimal 20 [2; 8; 10]) as (dp & Hdp & Hcells);
    [reflexivity | reflexivity |].
  exists dp. split; [exact Hdp|]. apply Hcells. simpl. lia.
Defined.

(** X10: for valid cuts, at least one, the split recorded in the answer
    cell [(0, n)] is the position of a best first cut: some order that starts
    with that cut has the cost the cell holds, and no order costs less. *)
Lemma break_table_first_cut (string_length : Z) (cuts : list Z) :
  strictly_increasing cuts = true → in_range string_length cuts = true →
  cuts ≠ [] →
  ∃ dp v (s : nat) c rest,
    break_table string_length cuts = Ok dp ∧
    tget dp 0 (length cuts) = Some (Int v, Z.of_nat s) ∧
    cuts !! s = Some c ∧
    c :: rest ≡ₚ cuts ∧
    order_cost [(0, string_length)] (c :: rest) = v ∧
    least_cost 0 string_length cuts v.
Proof.
  intros Hsorted Hrange Hne.
  destruct (break_table_optimal string_length cuts Hsorted Hrange)
    as (dp & Hdp & Hopt).
  destruct (break_table_recurrence string_length cuts) as (dp' & Hdp' & Hrec).
  assert (dp' = dp) as -> by congruence.
  apply strictly_increasing_sorted in Hsorted.
  apply in_range_Forall in Hrange.
  set (n := length cuts).
  assert (0 < n)%nat as Hn by (destruct cuts; [done|cbn; lia]).
  destruct (Hrec O n) as (s & Hs & Hcell & _); [lia|].
  destruct (lookup_lt_is_Some_2 cuts s) as [c Hc]; [lia|].
  destruct (Hopt O s) as (vl & sl & Hvl & [(ol & Hol & Hcl) _]); [lia|].
  destruct (Hopt (s + 1)%nat n) as (vr & sr & Hvr & [(or_ & Hor & Hcr) _]); [lia|].
  destruct (Hopt O n) as (v & s' & Hv & Hleast); [lia|].
  rewrite (seg_end_lookup _ _ _ _ Hc) in Hcl.
  replace (s + 1)%nat with (S s) in Hcr, Hor, Hvr by lia.
  rewrite (seg_start_lookup _ _ _ Hc) in Hcr.
  assert (inner cuts 0 s = take s cuts) as Hleft.
  { unfold inner. by rewrite Nat.sub_0_r, drop_0. }
  assert (inner cuts (S s) n = drop (S s) cuts) as Hright.
  { unfold inner. apply take_ge. rewrite length_drop. lia. }
  rewrite Hleft in Hol. rewrite Hright in Hor.
  assert (seg_end string_length cuts n = string_length) as Hend
    by (unfold seg_end; by rewrite decide_True).
  rewrite Hend in Hcr.
  change (seg_start cuts 0) with 0 in Hcl.
  pose proof (take_drop_middle _ _ _ Hc) as Hcuts.
  pose proof Hsorted as Hmid. rewrite <- Hcuts in Hmid.
  apply sorted_middle in Hmid as [Hlt Hgt].
  assert (Forall (λ x, x < c) ol) as Hlt' by (by rewrite Hol).
  assert (Forall (λ x, c < x) or_) as Hgt' by (by rewrite Hor).
  assert (0 ≤ c < string_length) as Hc_range.
  { apply (proj1 (Forall_forall _ _) Hrange). by eapply list_elem_of_lookup_2. }
  pose proof Hv as Hv'. rewrite Hcell in Hv'. injection Hv' as Hval Hsplit.
  exists dp, v, s, c, (ol ++ or_).
  split; [done|]. split; [|split; [done|split; [|split]]].
  - by rewrite Hv, Hsplit.
  - by rewrite Hol, Hor, Permutation_middle, Hcuts.
  - rewrite order_cost_first; [|done|].
    + destruct (filter_sides ol or_ c Hlt' Hgt') as [-> ->]. rewrite Hcl, Hcr.
      rewrite <- Hval. unfold split_cost.
      replace (s + 1)%nat with (S s) by lia.
      rewrite (cost_of_Some _ _ _ _ _ Hvl), (cost_of_Some _ _ _ _ _ Hvr), Hend.
      change (seg_start cuts 0) with 0. lia.
    + intros [Hin|Hin]%elem_of_app.
      * pose proof (proj1 (Forall_forall _ _) Hlt' c Hin) as Hbad.
        cbn in Hbad. lia.
      * pose proof (proj1 (Forall_forall _ _) Hgt' c Hin) as Hbad.
        cbn in Hbad. lia.
  - unfold optimal in Hleast. rewrite Hend in Hleast.
    change (seg_start cuts 0) with 0 in Hleast.
    assert (inner cuts 0 n = cuts) as Hall.
    { unfold inner. rewrite Nat.sub_0_r, drop_0. by apply take_ge. }
    by rewrite Hall in Hleast.
Qed.

Lemma break_table_first_cut_witness :
  ∃ dp v (s : nat) c rest,
    break_table 20 [2; 8; 10] = Ok dp ∧
    tget dp 0 (length [2; 8; 10]) = Some (Int v, Z.of_nat s) ∧
    [2; 8; 10] !! s = Some c ∧
    c :: rest ≡ₚ [2; 8; 10] ∧
    order_cost [(0, 20)] (c :: rest) = v ∧
    least_cost 0 20 [2; 8; 10] v.
Proof.
  apply break_table_first_cut; [reflexivity | reflexivity | discriminate].
Defined.

End CutsExtra.
